(** * MasterBlogAPI: the post store and its HTTP handlers

    A shallow embedding of [backend/backend_app.py].  The module keeps one
    global list [POSTS] of dictionaries; every function that reads or
    writes it is modelled in a state-and-exception monad over that list.

    Python values are restricted to the three kinds the program handles in
    posts and JSON bodies: integers, strings and [None].  A string is the
    sequence of the bytes of its UTF-8 encoding, under which equality, the
    substring test and the order of the code points are those of the byte
    sequences.  [str.lower], which knows the cased letters of Unicode, is
    not defined here: the functions that call it take it as a parameter. *)

From Stdlib Require Import ZArith String Ascii List DecimalString.
From stdpp Require Import base decidable option list strings gmap sorting.

Local Open Scope string_scope.
Local Open Scope list_scope.
Local Open Scope Z_scope.

(** ** Python values and exceptions *)

Module Py.

Inductive value : Type :=
| VInt (n : Z)
| VStr (s : string)
| VNone.

#[global] Instance value_eq_dec : EqDecision value.
Proof. solve_decision. Defined.

Inductive exn : Type :=
| KeyError (arg : string)
| TypeError
| AttributeError
| ValueError.

Inductive result (A : Type) : Type :=
| Ok (a : A)
| Raise (e : exn).
Arguments Ok {A} a.
Arguments Raise {A} e.

#[global] Instance result_ret : MRet result := fun A a => Ok a.
#[global] Instance result_bind : MBind result := fun A B f m =>
  match m with
  | Ok a => f a
  | Raise e => Raise e
  end.

(** A dictionary with string keys; [d[k]] raises [KeyError(k)]. *)
Abbreviation dict := (gmap string value).

Definition getitem (d : dict) (k : string) : result value :=
  match d !! k with
  | Some v => Ok v
  | None => Raise (KeyError k)
  end.

Arguments getitem : simpl never.

(** [bool(d)] for a dictionary and [bool(s)] for a string. *)
Definition dict_truthy (d : dict) : bool := bool_decide (d ≠ ∅).
Definition str_truthy (s : string) : bool := bool_decide (s ≠ "").

(** [bool(x)] for the result of [request.args.get] or of a lookup that
    answers [None] when nothing is found. *)
Definition opt_truthy {A} (truthy : A → bool) (o : option A) : bool :=
  match o with
  | Some a => truthy a
  | None => false
  end.

(** *** Strings *)

(** [s.lower()] on ASCII text, where it acts on the letters [A]..[Z]
    alone.  It is the instance of [str.lower] at which the examples, all
    on ASCII strings, are evaluated. *)
Definition is_upper (c : ascii) : bool :=
  ((65 <=? N_of_ascii c) && (N_of_ascii c <=? 90))%N.

Definition lower_char (c : ascii) : ascii :=
  if is_upper c then ascii_of_N (N_of_ascii c + 32) else c.

Fixpoint ascii_lower (s : string) : string :=
  match s with
  | EmptyString => EmptyString
  | String c s' => String (lower_char c) (ascii_lower s')
  end.

(** [s.startswith(p)] *)
Fixpoint startswith (p s : string) : bool :=
  match p, s with
  | EmptyString, _ => true
  | String _ _, EmptyString => false
  | String a p', String b s' => bool_decide (a = b) && startswith p' s'
  end.

(** [needle in hay] for two strings. *)
Fixpoint contains (needle hay : string) : bool :=
  startswith needle hay ||
  match hay with
  | EmptyString => false
  | String _ hay' => contains needle hay'
  end.

(** [a < b] on strings: lexicographic on the character codes. *)
Fixpoint str_lt (a b : string) : bool :=
  match a, b with
  | _, EmptyString => false
  | EmptyString, String _ _ => true
  | String x a', String y b' =>
      (N_of_ascii x <? N_of_ascii y)%N
      || (bool_decide (x = y) && str_lt a' b')
  end.

Definition str_le (a b : string) : bool := negb (str_lt b a).

(** [str(n)] for an integer. *)
Definition str_of_int (n : Z) : string := NilZero.string_of_int (Z.to_int n).

(** *** Comparison and arithmetic on values *)

(** [a < b]: defined between two integers and between two strings. *)
Definition lt (a b : value) : result bool :=
  match a, b with
  | VInt x, VInt y => Ok (x <? y)
  | VStr x, VStr y => Ok (str_lt x y)
  | _, _ => Raise TypeError
  end.

(** [a > b] *)
Definition gt (a b : value) : result bool := lt b a.

(** [a + 1] *)
Definition add1 (a : value) : result value :=
  match a with
  | VInt x => Ok (VInt (x + 1))
  | _ => Raise TypeError
  end.

(** [max(it)] over a generator: the items are produced one at a time, so
    an item that raises does so when the loop reaches it. *)
Fixpoint max_loop (cur : value) (items : list (result value)) : result value :=
  match items with
  | [] => Ok cur
  | it :: rest =>
      item ← it;
      b ← gt item cur;
      max_loop (if b : bool then item else cur) rest
  end.

Definition max (items : list (result value)) : result value :=
  match items with
  | [] => Raise ValueError
  | it :: rest => item ← it; max_loop item rest
  end.

(** [l.remove(x)]: drops the first element equal to [x]. *)
Fixpoint list_remove `{EqDecision A} (x : A) (l : list A) : result (list A) :=
  match l with
  | [] => Raise ValueError
  | y :: l' => if decide (y = x) then Ok l' else (r ← list_remove x l'; Ok (y :: r))
  end.

(** [[x for x in l if cond(x)]] *)
Fixpoint list_comp_if {A} (cond : A → result bool) (l : list A) : result (list A) :=
  match l with
  | [] => Ok []
  | x :: l' =>
      b ← cond x;
      r ← list_comp_if cond l';
      Ok (if b : bool then x :: r else r)
  end.

(** [sorted(l, key=f, reverse=r)].  The keys are computed first; the
    list is then sorted on them with [<] alone, as [list.sort] does, by a
    stable insertion sort.  With [reverse] the list is reversed before and
    after sorting, which keeps items with equal keys in their original
    order. *)
Fixpoint insort {A} (x : value * A) (l : list (value * A))
    : result (list (value * A)) :=
  match l with
  | [] => Ok [x]
  | y :: l' =>
      b ← lt y.1 x.1;
      if b : bool then (r ← insort x l'; Ok (y :: r)) else Ok (x :: y :: l')
  end.

Fixpoint sort_keyed {A} (l : list (value * A)) : result (list (value * A)) :=
  match l with
  | [] => Ok []
  | x :: l' => s ← sort_keyed l'; insort x s
  end.

Definition sorted {A} (l : list A) (key : A → result value) (reverse : bool)
    : result (list A) :=
  ks ← mapM key l;
  s ← sort_keyed (if reverse then list.reverse (zip ks l) else zip ks l);
  Ok ((if reverse then list.reverse s else s).*2).

End Py.

Import Py.

(** ** The application *)

Module Blog.

Abbreviation post := (gmap string value).

(** The module-level list, as the file initialises it. *)
Definition POSTS : list post :=
  [ {[ "id" := VInt 1; "title" := VStr "First post";
       "content" := VStr "This is the first post." ]};
    {[ "id" := VInt 2; "title" := VStr "Second post";
       "content" := VStr "This is the second post." ]} ].

(** Computations over the global list: they may change it and may raise.
    A computation that raises keeps the changes made before the raise. *)
Definition M (A : Type) : Type := list post → list post * result A.

#[global] Instance M_ret : MRet M := fun A a st => (st, Ok a).
#[global] Instance M_bind : MBind M := fun A B f m st =>
  match m st with
  | (st', Ok a) => f a st'
  | (st', Raise e) => (st', Raise e)
  end.

Definition read_POSTS : M (list post) := fun st => (st, Ok st).
Definition write_POSTS (l : list post) : M unit := fun _ => (l, Ok tt).
Definition lift {A} (r : result A) : M A := fun st => (st, r).

(** [try: ... except (KeyError, TypeError) as e: raise KeyError(msg) from e] *)
Definition reraise_as_KeyError {A} (msg : string) (r : result A) : result A :=
  match r with
  | Raise (KeyError _) | Raise TypeError => Raise (KeyError msg)
  | _ => r
  end.

Definition invalid_post_data : string :=
  "Could not determine next ID due to invalid post data.".

Definition get_next_id (posts : list post) : result value :=
  if bool_decide (posts = []) then Ok (VInt 1)
  else
    reraise_as_KeyError invalid_post_data
      (m ← Py.max ((fun post => getitem post "id") <$> posts); add1 m).

(** [post.get("id") == post_id] *)
Definition has_id (post_id : Z) (post : post) : Prop :=
  default VNone (post !! "id") = VInt post_id.

#[global] Instance has_id_dec post_id post : Decision (has_id post_id post).
Proof. unfold has_id. apply _. Defined.

(** The function returns a reference to a dictionary held in [POSTS].
    The dictionaries of the list are distinct objects, so the reference is
    modelled by the position together with the dictionary found there. *)
Definition get_blog_post_by_id (post_id : Z) : M (option (nat * post)) :=
  posts ← read_POSTS;
  mret (list_find (has_id post_id) posts).

(** The [print] of the new post writes to standard output only. *)
Definition add_blog_post (title content : value) : M post :=
  posts ← read_POSTS;
  id ← lift (get_next_id posts);
  let post : post := {[ "id" := id; "title" := title; "content" := content ]} in
  _ ← write_POSTS (posts ++ [post]);
  mret post.

Section Lower.

(** The method [str.lower] of Python, which the module calls and does not
    define: the functions below are given for any function on strings. *)
Variable lower : string → string.

(** [value.lower()] exists on strings only. *)
Definition method_lower (v : value) : result string :=
  match v with
  | VStr s => Ok (lower s)
  | _ => Raise AttributeError
  end.

Definition find_str (search_str search_key : string) : M (list post) :=
  if negb (str_truthy search_str) || negb (str_truthy search_key) then mret []
  else
    posts ← read_POSTS;
    lift (list_comp_if
            (fun post =>
               let needle := lower search_str in
               v ← getitem post search_key;
               hay ← method_lower v;
               Ok (contains needle hay))
            posts).

Definition find_in_title (title : string) : M (list post) :=
  find_str title "title".

Definition find_in_content (content : string) : M (list post) :=
  find_str content "content".

End Lower.

Definition sort_posts_by_ (key : string) (is_desc : bool) : M (list post) :=
  posts ← read_POSTS;
  lift (sorted posts (fun d => getitem d key) is_desc).

(** *** HTTP handlers

    A view returns a body and a status.  The body is kept as the Python
    value handed to Flask: a list of posts, one post, or a dictionary
    with the single key [message]. *)
Inductive body : Type :=
| BList (ps : list post)
| BPost (p : post)
| BMessage (message : string).

Definition response : Type := body * Z.

(** [request.args]: the query parameters by name. *)
Abbreviation args := (gmap string string).

Definition get_posts (request_args : args) : M response :=
  let sort := request_args !! "sort" in
  let dir := request_args !! "direction" in
  if opt_truthy str_truthy sort && opt_truthy str_truthy dir then
    let sort := default "" sort in
    let dir := default "" dir in
    if (bool_decide (sort = "title") || bool_decide (sort = "content"))
       && (bool_decide (dir = "asc") || bool_decide (dir = "desc"))
    then
      sorted_list ← sort_posts_by_ sort (bool_decide (dir = "desc"));
      mret (BList sorted_list, 200)
    else mret (BMessage "Wrong sort or direction value", 400)
  else
    posts ← read_POSTS;
    mret (BList posts, 200).

(** The route accepts POST only, so the test on the method succeeds. *)
Definition add_post (post_json : dict) : M response :=
  title ← lift (getitem post_json "title");
  content ← lift (getitem post_json "content");
  post ← add_blog_post title content;
  mret (BPost post, 201).

Definition delete_post (post_id : Z) : M response :=
  found ← get_blog_post_by_id post_id;
  match found with
  | Some (_, post) =>
      if dict_truthy post then
        posts ← read_POSTS;
        posts' ← lift (list_remove post posts);
        _ ← write_POSTS posts';
        mret (BMessage ("Post with id " +:+ str_of_int post_id
                        +:+ " has been deleted successfully."), 200)
      else mret (BMessage ("Post with id= " +:+ str_of_int post_id
                           +:+ " not found"), 404)
  | None => mret (BMessage ("Post with id= " +:+ str_of_int post_id
                            +:+ " not found"), 404)
  end.

(** [post[k] = v] on the dictionary referenced by position [i]. *)
Definition setitem (i : nat) (k : string) (v : value) : M unit :=
  posts ← read_POSTS;
  write_POSTS (alter (fun d : post => <[k := v]> d) i posts).

(** The current contents of the dictionary referenced by position [i]. *)
Definition deref (i : nat) (d : post) : M post :=
  posts ← read_POSTS;
  mret (default d (posts !! i)).

Definition update_post (post_id : Z) (post_json : dict) : M response :=
  found ← get_blog_post_by_id post_id;
  match found with
  | Some (i, post) =>
      if dict_truthy post then
        title ← lift (getitem post_json "title");
        _ ← setitem i "title" title;
        content ← lift (getitem post_json "content");
        _ ← setitem i "content" content;
        post' ← deref i post;
        mret (BPost post', 200)
      else mret (BMessage ("Post with id= " +:+ str_of_int post_id
                           +:+ " not found"), 404)
  | None => mret (BMessage ("Post with id= " +:+ str_of_int post_id
                            +:+ " not found"), 404)
  end.

Section SearchRoute.

(** [str.lower] *)
Variable lower : string → string.

Definition get_posts_search (request_args : args) : M response :=
  let title := request_args !! "title" in
  if opt_truthy str_truthy title then
    found ← find_in_title lower (default "" title);
    mret (BList found, 200)
  else
    let content := request_args !! "content" in
    if opt_truthy str_truthy content then
      found ← find_in_content lower (default "" content);
      mret (BList found, 200)
    else mret (BList [], 404).

End SearchRoute.

End Blog.

Import Blog.

(** ** Vocabulary of the properties

    *** Identifiers *)

(** The integer stored under ["id"], when there is one. *)
Definition int_id (p : post) : option Z :=
  match p !! "id" with
  | Some (VInt n) => Some n
  | _ => None
  end.

Definition has_int_id (p : post) : Prop := is_Some (int_id p).

Definition int_ids (posts : list post) : list Z := omap int_id posts.

#[global] Instance has_int_id_dec p : Decision (has_int_id p).
Proof. unfold has_int_id. apply _. Defined.

(** The dictionary built by [add_blog_post]. *)
Definition new_post (n : Z) (title content : value) : post :=
  {[ "id" := VInt n; "title" := title; "content" := content ]}.

Definition new_posts (ns : list Z) (reqs : list (value * value)) : list post :=
  zip_with (fun n req => new_post n req.1 req.2) ns reqs.

(** The dictionary left by the two assignments of [update_post]. *)
Definition updated (title content : value) (p : post) : post :=
  <["content" := content]> (<["title" := title]> p).

(** Position [i] holds the first post of the list with the given id. *)
Definition first_with_id (post_id : Z) (st : list post) (i : nat) (p : post) : Prop :=
  st !! i = Some p ∧ has_id post_id p
  ∧ ∀ j q, st !! j = Some q → (j < i)%nat → ¬ has_id post_id q.

(** *** Fields and order *)

(** What [d.get(key)] answers. *)
Definition field (key : string) (p : post) : value := default VNone (p !! key).

(** The post holds a string under the key. *)
Definition has_str (key : string) (p : post) : Prop :=
  ∃ s, p !! key = Some (VStr s).

(** The string of [p] under the key comes no later than that of [q] in
    the lexicographic order. *)
Definition field_le (key : string) (p q : post) : Prop :=
  ∃ s t, p !! key = Some (VStr s) ∧ q !! key = Some (VStr t) ∧ str_le s t = true.

Definition field_order (key : string) (is_desc : bool) : relation post :=
  if is_desc then flip (field_le key) else field_le key.

(** [out] is the stable sort of [st] on the key: the same posts, in the
    order of the key, and posts with the same value under the key in the
    order they have in [st]. *)
Definition stable_sort_of (key : string) (is_desc : bool) (st out : list post) : Prop :=
  out ≡ₚ st
  ∧ StronglySorted (field_order key is_desc) out
  ∧ ∀ v, filter (fun p => field key p = v) out = filter (fun p => field key p = v) st.

(** The same notions on a list decorated with its keys. *)
Definition key_le {A} (x y : value * A) : Prop :=
  ∃ s t, x.1 = VStr s ∧ y.1 = VStr t ∧ str_le s t = true.

Definition str_key {A} (x : value * A) : Prop := ∃ s, x.1 = VStr s.

Definition decorate (key : string) (p : post) : value * post := (field key p, p).

(** A decorated item carries the value of its own post. *)
Definition decorated (key : string) (x : value * post) : Prop :=
  x.1 = field key x.2.

(** *** Search *)

(** The test applied by [find_str] to a post that holds a string under
    the key: the query occurs in the string once [lower] has been applied
    to both. *)
Definition field_matches (lower : string → string) (q key : string) (p : post) : bool :=
  match p !! key with
  | Some (VStr s) => contains (lower q) (lower s)
  | _ => false
  end.

(** *** A store with a title that is not a string *)

(** The body [{"title": 5, "content": "C"}], and the seed store after
    [PUT /api/posts/1] with that body. *)
Definition number_title : dict := {[ "title" := VInt 5; "content" := VStr "C" ]}.

Definition POSTS_number_title : list post := (update_post 1 number_title POSTS).1.

(** *** Query parameters *)

(** The parameter is present with a non-empty value. *)
Definition given (a : args) (name : string) : Prop :=
  ∃ s, a !! name = Some s ∧ s ≠ "".

#[global] Instance given_dec a name : Decision (given a name).
Proof.
  unfold given. destruct (a !! name) as [s|].
  - destruct (decide (s = "")) as [->|Hs].
    + right. by intros (? & [= <-] & ?).
    + left. eauto.
  - right. by intros (? & ? & ?).
Defined.

(** *** Routes and well-formed stores *)

(** The five routes that the module registers with [app.route], each
    with what it reads from the request. *)
Inductive request : Type :=
| GET_posts (request_args : args)
| POST_posts (post_json : dict)
| DELETE_post (post_id : Z)
| PUT_post (post_id : Z) (post_json : dict)
| GET_search (request_args : args).

Definition route (lower : string → string) (r : request) : M response :=
  match r with
  | GET_posts a => get_posts a
  | POST_posts j => add_post j
  | DELETE_post n => delete_post n
  | PUT_post n j => update_post n j
  | GET_search a => get_posts_search lower a
  end.

(** The store after a sequence of requests, answered one after the other. *)
Fixpoint serve (lower : string → string) (rs : list request) (st : list post)
    : list post :=
  match rs with
  | [] => st
  | r :: rs' => serve lower rs' (route lower r st).1
  end.

(** Every post carries a positive integer id and no two posts the same. *)
Definition positive_id (p : post) : Prop := ∃ n, int_id p = Some n ∧ 1 ≤ n.

Definition ids_ok (st : list post) : Prop :=
  Forall positive_id st ∧ NoDup (int_ids st).

(** The dictionary holds strings under ["title"] and ["content"]. *)
Definition is_text (d : dict) : Prop := has_str "title" d ∧ has_str "content" d.

Definition store_ok (st : list post) : Prop := ids_ok st ∧ Forall is_text st.

(** The JSON body of the request, when the route reads one, holds strings
    under ["title"] and ["content"]. *)
Definition text_request (r : request) : Prop :=
  match r with
  | POST_posts j | PUT_post _ j => is_text j
  | _ => True
  end.

(** The computation leaves the store as it finds it, whether it returns
    or raises. *)
Definition read_only {A} (m : M A) : Prop := ∀ st, (m st).1 = st.

(** A run of insertions, one per (title, content) pair, returning the posts
    that the successive calls return. *)
Fixpoint insert_all (reqs : list (value * value)) : M (list post) :=
  match reqs with
  | [] => mret []
  | req :: reqs' =>
      p ← add_blog_post req.1 req.2;
      ps ← insert_all reqs';
      mret (p :: ps)
  end.

(** ** Facts about the string operations *)

Section StringFacts.

Lemma startswith_spec p s :
  startswith p s = true ↔ ∃ suf, s = p +:+ suf.
Proof.
  revert s. induction p as [|a p IH]; intros s; simpl.
  - split; [|done]. intros _. by exists s.
  - destruct s as [|b s].
    + split; [done|]. by intros [suf ?].
    + rewrite andb_true_iff, bool_decide_eq_true, IH. split.
      * intros [-> [suf ->]]. by exists suf.
      * intros [suf H]. injection H as -> ->. eauto.
Qed.

Lemma contains_spec needle hay :
  contains needle hay = true ↔ ∃ pre suf, hay = pre +:+ needle +:+ suf.
Proof.
  induction hay as [|c hay IH]; simpl; rewrite orb_true_iff, startswith_spec.
  - split.
    + intros [[suf H]|?]; [|done]. by exists "", suf.
    + intros (pre & suf & H). left. destruct pre; [by exists suf|done].
  - rewrite IH. split.
    + intros [[suf H]|(pre & suf & ->)].
      * by exists "", suf.
      * by exists (String c pre), suf.
    + intros (pre & suf & H). destruct pre as [|d pre]; simpl in H.
      * left. by exists suf.
      * right. injection H as -> ->. eauto.
Qed.

Lemma contains_empty hay : contains "" hay = true.
Proof. by destruct hay. Qed.

Lemma N_of_ascii_inj x y : N_of_ascii x = N_of_ascii y → x = y.
Proof.
  intros H. rewrite <- (ascii_N_embedding x), <- (ascii_N_embedding y).
  by rewrite H.
Qed.

Lemma str_lt_irrefl a : str_lt a a = false.
Proof.
  induction a as [|x a IH]; simpl; [done|].
  rewrite IH, andb_false_r, orb_false_r. apply N.ltb_irrefl.
Qed.

Lemma str_lt_trans a b c :
  str_lt a b = true → str_lt b c = true → str_lt a c = true.
Proof.
  revert b c. induction a as [|x a IH]; intros [|y b] [|z c]; simpl; try done.
  rewrite !orb_true_iff, !andb_true_iff, !bool_decide_eq_true, !N.ltb_lt.
  intros [Hxy|[-> Hab]] [Hyz|[-> Hbc]].
  - left. lia.
  - by left.
  - by left.
  - right. eauto.
Qed.

Lemma str_lt_connex a b :
  str_lt a b = false → str_lt b a = false → a = b.
Proof.
  revert b. induction a as [|x a IH]; intros [|y b]; simpl; try done.
  rewrite !orb_false_iff, !andb_false_iff, !bool_decide_eq_false, !N.ltb_ge.
  intros [Hxy H1] [Hyx H2].
  assert (x = y) as -> by (apply N_of_ascii_inj; lia).
  f_equal. apply IH; [by destruct H1|by destruct H2].
Qed.

Lemma str_lt_asym a b : str_lt a b = true → str_lt b a = false.
Proof.
  intros H. destruct (str_lt b a) eqn:E; [|done].
  by rewrite <- (str_lt_irrefl a), <- (str_lt_trans _ _ _ H E).
Qed.

Lemma str_le_refl a : str_le a a = true.
Proof. unfold str_le. by rewrite str_lt_irrefl. Qed.

Lemma str_le_trans a b c :
  str_le a b = true → str_le b c = true → str_le a c = true.
Proof.
  unfold str_le. rewrite !negb_true_iff. intros Hba Hcb.
  destruct (str_lt c a) eqn:Hca; [|done].
  destruct (str_lt a b) eqn:Hab.
  - by rewrite (str_lt_trans _ _ _ Hca Hab) in Hcb.
  - rewrite (str_lt_connex _ _ Hab Hba) in Hca. by rewrite Hca in Hcb.
Qed.

Lemma str_le_antisym a b : str_le a b = true → str_le b a = true → a = b.
Proof.
  unfold str_le. rewrite !negb_true_iff. intros. by apply str_lt_connex.
Qed.

Lemma str_le_total a b : str_le a b = true ∨ str_le b a = true.
Proof.
  unfold str_le. destruct (str_lt b a) eqn:E; [|by left].
  right. by rewrite (str_lt_asym _ _ E).
Qed.

End StringFacts.

(** ** Identifiers: [get_next_id] and [add_blog_post] *)

Section NextId.

Lemma int_id_Some p n : int_id p = Some n ↔ p !! "id" = Some (VInt n).
Proof.
  unfold int_id. destruct (p !! "id") as [[]|]; naive_solver.
Qed.

Lemma getitem_int_id p n : int_id p = Some n → getitem p "id" = Ok (VInt n).
Proof. rewrite int_id_Some. unfold getitem. by intros ->. Qed.

Lemma int_ids_all posts :
  Forall has_int_id posts → Forall2 (fun p n => int_id p = Some n) posts (int_ids posts).
Proof.
  induction 1 as [|p posts [n Hn] _ IH]; [constructor|].
  unfold int_ids. simpl. rewrite Hn. simpl. by constructor.
Qed.

Lemma int_ids_app l1 l2 : int_ids (l1 ++ l2) = int_ids l1 ++ int_ids l2.
Proof. apply omap_app. Qed.

Lemma int_id_new_post n t c : int_id (new_post n t c) = Some n.
Proof. by apply int_id_Some. Qed.

(** On integer ids the loop of [max] computes the greatest one. *)
Lemma max_loop_ints cur posts :
  Forall has_int_id posts →
  max_loop (VInt cur) ((fun p => getitem p "id") <$> posts)
  = Ok (VInt (foldl Z.max cur (int_ids posts))).
Proof.
  intros H. revert cur. induction H as [|p posts [n Hn] _ IH]; intros cur; [done|].
  unfold int_ids. simpl. rewrite (getitem_int_id _ _ Hn), Hn. simpl.
  fold (int_ids posts).
  replace (if cur <? n then VInt n else VInt cur) with (VInt (Z.max cur n)).
  - apply IH.
  - destruct (Z.ltb_spec cur n); f_equal; lia.
Qed.

Lemma foldl_max_ge cur ns : cur ≤ foldl Z.max cur ns.
Proof.
  revert cur. induction ns as [|n ns IH]; intros cur; simpl; [lia|].
  specialize (IH (Z.max cur n)). lia.
Qed.

Lemma foldl_max_upper cur ns : Forall (fun n => n ≤ foldl Z.max cur ns) ns.
Proof.
  revert cur. induction ns as [|n ns IH]; intros cur; simpl; constructor.
  - pose proof (foldl_max_ge (Z.max cur n) ns). lia.
  - apply IH.
Qed.

Lemma foldl_max_elem cur ns :
  foldl Z.max cur ns = cur ∨ foldl Z.max cur ns ∈ ns.
Proof.
  revert cur. induction ns as [|n ns IH]; intros cur; simpl; [by left|].
  destruct (IH (Z.max cur n)) as [H|H].
  - rewrite H. destruct (Z.max_spec cur n) as [[_ ->]|[_ ->]].
    + right. left.
    + by left.
  - right. by right.
Qed.

Lemma getitem_Ok (d : post) k v : getitem d k = Ok v ↔ d !! k = Some v.
Proof. unfold getitem. destruct (d !! k); naive_solver. Qed.

Lemma getitem_Raise (d : post) k e :
  getitem d k = Raise e ↔ d !! k = None ∧ e = KeyError k.
Proof.
  unfold getitem. destruct (d !! k); split; try done.
  - by intros [? _].
  - by intros [= <-].
  - by intros [_ ->].
Qed.

Lemma gt_Ok_int v cur b c :
  gt v cur = Ok b → (if b then v else cur) = VInt c → ∃ n c', v = VInt n ∧ cur = VInt c'.
Proof.
  destruct v, cur; simpl; try done; intros _.
  - eauto.
  - by destruct b.
Qed.

Lemma gt_Raise v cur e : gt v cur = Raise e → e = TypeError.
Proof. destruct v, cur; simpl; congruence. Qed.

(** When the loop answers an integer, everything it saw was one. *)
Lemma max_loop_Ok_int cur posts m :
  max_loop cur ((fun p => getitem p "id") <$> posts) = Ok (VInt m) →
  (∃ c, cur = VInt c) ∧ Forall has_int_id posts.
Proof.
  revert cur. induction posts as [|p posts IH]; intros cur; simpl.
  - intros [= ->]. eauto.
  - destruct (getitem p "id") as [v|e] eqn:Hp; simpl; [|done].
    destruct (gt v cur) as [b|e] eqn:Hgt; simpl; [|done].
    intros H. apply IH in H as [[c Hc] H].
    destruct (gt_Ok_int _ _ _ _ Hgt Hc) as (n & c' & -> & ->).
    split; [eauto|]. constructor; [|done].
    exists n. by apply int_id_Some, getitem_Ok.
Qed.

Lemma max_ids_Ok_int posts m :
  Py.max ((fun p => getitem p "id") <$> posts) = Ok (VInt m) →
  Forall has_int_id posts.
Proof.
  destruct posts as [|p posts]; simpl; [done|].
  destruct (getitem p "id") as [v|e] eqn:Hp; simpl; [|done].
  intros H. apply max_loop_Ok_int in H as [[c ->] H].
  constructor; [|done]. exists c. by apply int_id_Some, getitem_Ok.
Qed.

(** The only exceptions [max] can meet here are the two that
    [get_next_id] converts. *)
Lemma max_loop_raises cur posts e :
  max_loop cur ((fun p => getitem p "id") <$> posts) = Raise e →
  e = TypeError ∨ ∃ k, e = KeyError k.
Proof.
  revert cur. induction posts as [|p posts IH]; intros cur; simpl; [done|].
  destruct (getitem p "id") as [v|e'] eqn:Hp; simpl.
  - destruct (gt v cur) as [b|e''] eqn:Hgt; simpl.
    + apply IH.
    + intros [= <-]. left. by apply gt_Raise in Hgt.
  - intros [= <-]. apply getitem_Raise in Hp as [_ ->]. eauto.
Qed.

Lemma get_next_id_raises posts e :
  get_next_id posts = Raise e → e = KeyError invalid_post_data.
Proof.
  unfold get_next_id. case_bool_decide; [done|].
  destruct posts as [|p posts]; [done|]. simpl.
  destruct (getitem p "id") as [v|e'] eqn:Hp; simpl.
  - destruct (max_loop v _) as [m|e''] eqn:Hm; simpl.
    + destruct m; simpl; congruence.
    + apply max_loop_raises in Hm as [->|[k ->]]; simpl; congruence.
  - apply getitem_Raise in Hp as [_ ->]. simpl. congruence.
Qed.

Lemma get_next_id_Ok posts v :
  get_next_id posts = Ok v → posts = [] ∨ Forall has_int_id posts.
Proof.
  unfold get_next_id. case_bool_decide; [by left|]. right.
  destruct (Py.max _) as [m|e] eqn:Hm; simpl in *.
  - destruct m as [m| |]; simpl in *; try done.
    by apply max_ids_Ok_int in Hm.
  - by destruct e.
Qed.

Lemma get_next_id_ints p posts :
  Forall has_int_id (p :: posts) →
  ∃ m, get_next_id (p :: posts) = Ok (VInt (m + 1))
       ∧ m ∈ int_ids (p :: posts)
       ∧ Forall (fun n => n ≤ m) (int_ids (p :: posts)).
Proof.
  intros H. inversion H as [|? ? [n Hn] Hposts]; subst.
  unfold get_next_id. rewrite bool_decide_eq_false_2 by done. simpl.
  rewrite (getitem_int_id _ _ Hn). simpl. rewrite (max_loop_ints _ _ Hposts). simpl.
  exists (foldl Z.max n (int_ids posts)). split; [done|].
  unfold int_ids at 2 4. simpl. rewrite Hn. simpl. fold (int_ids posts). split.
  - destruct (foldl_max_elem n (int_ids posts)) as [->|?]; [left|by right].
  - constructor; [apply foldl_max_ge|apply foldl_max_upper].
Qed.

End NextId.

(** Unfolds the plumbing of the two monads. *)
Ltac unfold_M :=
  unfold mbind, mret, M_bind, M_ret, read_POSTS, write_POSTS, lift; simpl.

Section Inserts.

Lemma add_blog_post_ints st t c :
  Forall has_int_id st →
  ∃ n, add_blog_post t c st = (st ++ [new_post n t c], Ok (new_post n t c))
       ∧ Forall (fun m => m < n) (int_ids st).
Proof.
  intros H. unfold add_blog_post. destruct st as [|p st].
  - exists 1. split; [done|constructor].
  - destruct (get_next_id_ints p st H) as (m & Hm & _ & Hle).
    exists (m + 1). unfold_M. rewrite Hm. split; [done|].
    eapply Forall_impl; [exact Hle|]. simpl. lia.
Qed.

Lemma add_blog_post_invalid st t c :
  ¬ Forall has_int_id st →
  add_blog_post t c st = (st, Raise (KeyError invalid_post_data)).
Proof.
  intros Hbad. unfold add_blog_post. unfold_M.
  destruct (get_next_id st) as [v|e] eqn:Hnext.
  - apply get_next_id_Ok in Hnext as [->|Hall]; by destruct Hbad.
  - by rewrite (get_next_id_raises _ _ Hnext).
Qed.

Lemma insert_all_ints reqs st :
  Forall has_int_id st →
  ∃ ns : list Z,
    insert_all reqs st = (st ++ new_posts ns reqs, Ok (new_posts ns reqs))
    ∧ length ns = length reqs
    ∧ StronglySorted Z.lt ns
    ∧ Forall (fun n => Forall (fun m => m < n) (int_ids st)) ns.
Proof.
  revert st. induction reqs as [|[t c] reqs IH]; intros st Hst.
  - exists []. simpl. unfold_M. rewrite app_nil_r. repeat split; constructor.
  - destruct (add_blog_post_ints st t c Hst) as (n & Hadd & Hn).
    assert (Forall has_int_id (st ++ [new_post n t c])) as Hst'.
    { apply Forall_app. split; [done|]. constructor; [|done].
      exists n. apply int_id_new_post. }
    destruct (IH _ Hst') as (ns & Hrun & Hlen & Hsorted & Hbound).
    rewrite int_ids_app in Hbound. unfold int_ids at 2 in Hbound.
    simpl in Hbound. rewrite int_id_new_post in Hbound. simpl in Hbound.
    exists (n :: ns). simpl. unfold mbind at 1, M_bind at 1. rewrite Hadd.
    unfold mbind at 1, M_bind at 1. simpl in Hrun |- *. rewrite Hrun.
    unfold_M. rewrite <- app_assoc. simpl. repeat split; try done.
    + by rewrite Hlen.
    + constructor; [done|]. eapply Forall_impl; [exact Hbound|].
      simpl. intros k Hk. apply Forall_app in Hk as [_ Hk].
      by inversion Hk.
    + constructor; [done|]. eapply Forall_impl; [exact Hbound|].
      simpl. intros k Hk. by apply Forall_app in Hk as [Hk _].
Qed.

End Inserts.

(** ** Lookup by id, deletion and update *)

Section ById.

Lemma has_id_lookup post_id (p : post) :
  has_id post_id p ↔ p !! "id" = Some (VInt post_id).
Proof.
  unfold has_id. destruct (p !! "id") as [v|]; simpl; [|done].
  split; congruence.
Qed.

(** A post found by its id holds the key ["id"], so it is a non-empty
    dictionary and passes the test [if post:]. *)
Lemma has_id_truthy post_id p : has_id post_id p → dict_truthy p = true.
Proof.
  rewrite has_id_lookup. intros H. apply bool_decide_eq_true.
  intros ->. by rewrite lookup_empty in H.
Qed.

Lemma get_blog_post_by_id_found post_id st i p :
  first_with_id post_id st i p →
  get_blog_post_by_id post_id st = (st, Ok (Some (i, p))).
Proof.
  intros (Hi & Hp & Hfirst). unfold get_blog_post_by_id. unfold_M.
  do 2 f_equal. apply list_find_Some. eauto.
Qed.

Lemma get_blog_post_by_id_absent post_id st :
  Forall (fun p => ¬ has_id post_id p) st →
  get_blog_post_by_id post_id st = (st, Ok None).
Proof.
  intros H. unfold get_blog_post_by_id. unfold_M.
  do 2 f_equal. by apply list_find_None.
Qed.

Lemma exists_first_with_id post_id st :
  Exists (has_id post_id) st → ∃ i p, first_with_id post_id st i p.
Proof.
  intros H. apply Exists_exists in H as (p & Hin & Hp).
  destruct (list_find_elem_of (has_id post_id) st p Hin Hp) as [[i q] Hfind].
  exists i, q. by apply list_find_Some in Hfind.
Qed.

(** [POSTS.remove(post)] compares dictionaries by value.  No earlier
    dictionary can be equal to the one found, since none has its id. *)
Lemma list_remove_first (st : list post) i p :
  st !! i = Some p →
  (∀ j q, st !! j = Some q → (j < i)%nat → q ≠ p) →
  list_remove p st = Ok (delete i st).
Proof.
  revert i. induction st as [|q st IH]; intros i Hi Hfirst; [done|].
  destruct i as [|i]; simpl in *.
  - injection Hi as ->. by rewrite decide_True.
  - rewrite decide_False by (apply (Hfirst 0%nat); [done|lia]).
    rewrite (IH i); [done|done|].
    intros j r Hj Hlt. apply (Hfirst (S j)); [done|lia].
Qed.

Lemma setitem_at i k v (st : list post) p :
  st !! i = Some p → setitem i k v st = (<[i := <[k := v]> p]> st, Ok tt).
Proof.
  intros Hi. unfold setitem. unfold_M. f_equal.
  apply list_eq. intros j. destruct (decide (i = j)) as [<-|Hne].
  - rewrite list_lookup_alter_eq, Hi. simpl.
    by rewrite list_lookup_insert_eq by (by eapply lookup_lt_Some).
  - by rewrite list_lookup_alter_ne, list_lookup_insert_ne.
Qed.

End ById.

(** ** Sorting *)

Section KeyedSort.
Context {A : Type}.
Implicit Types (x y : value * A) (l r : list (value * A)).

Lemma key_le_trans x y z : key_le x y → key_le y z → key_le x z.
Proof.
  intros (s & t & Hs & Ht & Hst) (t' & u & Ht' & Hu & Htu).
  rewrite Ht in Ht'. injection Ht' as <-.
  exists s, u. eauto using str_le_trans.
Qed.

Lemma insort_spec x l :
  str_key x → Forall str_key l →
  ∃ r, insort x l = Ok r
       ∧ r ≡ₚ x :: l
       ∧ (StronglySorted key_le l → StronglySorted key_le r)
       ∧ ∀ v, filter (fun y => y.1 = v) r = filter (fun y => y.1 = v) (x :: l).
Proof.
  intros [s Hs] Hl. induction Hl as [|y l [t Ht] Hl IH].
  - exists [x]. repeat split; [done|]. intros _. repeat constructor.
  - simpl. rewrite Ht, Hs. simpl. destruct (str_lt t s) eqn:Hlt.
    + destruct IH as (r & -> & Hperm & Hsorted & Hfilter). simpl.
      exists (y :: r). split; [done|]. split; [|split].
      * rewrite Hperm. apply Permutation_swap.
      * intros [Hy Hl']%StronglySorted_cons. apply StronglySorted_cons.
        split; [|auto]. rewrite Hperm. constructor; [|done].
        exists t, s. repeat split; [done..|].
        unfold str_le. by rewrite (str_lt_asym _ _ Hlt).
      * intros v. rewrite (filter_cons _ y), Hfilter, !(filter_cons _ x), !(filter_cons _ y).
        destruct (decide (x.1 = v)) as [Hx|Hx]; [|done].
        assert (y.1 ≠ v) as Hy.
        { intros Hy. rewrite <- Hx, Hs, Ht in Hy. injection Hy as ->.
          by rewrite str_lt_irrefl in Hlt. }
        by repeat case_decide.
    + exists (x :: y :: l). repeat split; [done|].
      intros Hsorted. constructor; [done|].
      assert (key_le x y) as Hxy.
      { exists s, t. repeat split; [done..|]. unfold str_le. by rewrite Hlt. }
      constructor; [done|].
      apply StronglySorted_cons in Hsorted as [Hy _].
      eapply Forall_impl; [exact Hy|]. intros z. by apply key_le_trans.
Qed.

Lemma sort_keyed_spec l :
  Forall str_key l →
  ∃ r, sort_keyed l = Ok r
       ∧ r ≡ₚ l
       ∧ StronglySorted key_le r
       ∧ ∀ v, filter (fun y => y.1 = v) r = filter (fun y => y.1 = v) l.
Proof.
  induction 1 as [|x l Hx Hl IH].
  - exists []. repeat split; [done|constructor].
  - destruct IH as (r' & Hr' & Hperm & Hsorted & Hfilter). simpl. rewrite Hr'. simpl.
    destruct (insort_spec x r' Hx) as (r & Hr & Hperm' & Hsorted' & Hfilter').
    { by rewrite Hperm. }
    exists r. split; [done|]. split; [by rewrite Hperm', Hperm|].
    split; [auto|]. intros v.
    by rewrite Hfilter', !(filter_cons _ x), Hfilter.
Qed.

Lemma StronglySorted_reverse {B} (R : relation B) (l : list B) :
  StronglySorted R l → StronglySorted (flip R) (reverse l).
Proof.
  induction 1 as [|x l _ IH Hx]; [constructor|].
  rewrite reverse_cons. apply StronglySorted_app. split; [|split].
  - intros y z Hy Hz. apply list_elem_of_singleton in Hz as ->.
    rewrite elem_of_reverse in Hy. rewrite Forall_forall in Hx. by apply Hx.
  - done.
  - repeat constructor.
Qed.

End KeyedSort.

Section SortPosts.
Variable key : string.

Lemma mapM_getitem (st : list post) :
  Forall (has_str key) st →
  mapM (fun d : post => getitem d key) st = Ok (field key <$> st).
Proof.
  induction 1 as [|p st [s Hp] _ IH]; [done|].
  simpl. rewrite IH, (proj2 (getitem_Ok _ _ _) Hp). simpl.
  assert (field key p = VStr s) as -> by (unfold field; by rewrite Hp).
  done.
Qed.

Lemma zip_decorate (st : list post) :
  zip (field key <$> st) st = decorate key <$> st.
Proof. induction st as [|p st IH]; [done|]. csimpl. by rewrite IH. Qed.

Lemma decorate_snd (st : list post) : (decorate key <$> st).*2 = st.
Proof. induction st as [|p st IH]; [done|]. csimpl. by rewrite IH. Qed.

Lemma decorated_decorate (st : list post) : Forall (decorated key) (decorate key <$> st).
Proof. apply Forall_fmap, Forall_forall. by intros p _. Qed.

Lemma str_key_decorate (st : list post) :
  Forall (has_str key) st → Forall str_key (decorate key <$> st).
Proof.
  intros H. apply Forall_fmap. eapply Forall_impl; [exact H|].
  intros p [s Hp]. exists s. simpl. unfold field. by rewrite Hp.
Qed.

Lemma filter_decorated v (l : list (value * post)) :
  Forall (decorated key) l →
  filter (fun p => field key p = v) (l.*2) = (filter (fun y => y.1 = v) l).*2.
Proof.
  induction 1 as [|x l Hx _ IH]; [done|].
  csimpl. rewrite !filter_cons, IH. unfold decorated in Hx. rewrite <- Hx.
  by destruct (decide (x.1 = v)).
Qed.

Lemma key_le_field_le (x y : value * post) :
  decorated key x → decorated key y → key_le x y → field_le key x.2 y.2.
Proof.
  unfold decorated, field. intros Hx Hy (s & t & Hs & Ht & Hst).
  exists s, t. rewrite Hs in Hx. rewrite Ht in Hy.
  destruct (x.2 !! key), (y.2 !! key); simpl in *; by subst.
Qed.

Lemma StronglySorted_decorated (R : relation (value * post)) (R' : relation post) l :
  (∀ x y, decorated key x → decorated key y → R x y → R' x.2 y.2) →
  Forall (decorated key) l → StronglySorted R l → StronglySorted R' (l.*2).
Proof.
  intros HR Hl Hsorted. induction Hsorted as [|x l _ IH Hx]; [constructor|].
  apply Forall_cons in Hl as [Hdx Hl]. simpl. constructor; [auto|].
  apply Forall_fmap. rewrite Forall_forall in Hx, Hl |- *.
  intros y Hy. simpl. apply HR; auto.
Qed.

Lemma sorted_by_field (st : list post) (is_desc : bool) :
  Forall (has_str key) st →
  ∃ out, sorted st (fun d => getitem d key) is_desc = Ok out
         ∧ stable_sort_of key is_desc st out.
Proof.
  intros Hst. unfold sorted. rewrite (mapM_getitem _ Hst). simpl.
  rewrite zip_decorate.
  pose proof (decorated_decorate st) as Hdec.
  pose proof (str_key_decorate st Hst) as Hstr.
  destruct is_desc.
  - destruct (sort_keyed_spec (reverse (decorate key <$> st))) as (r & -> & Hperm & Hsorted & Hfilter).
    { by apply Forall_reverse. }
    simpl. eexists. split; [done|].
    assert (Forall (decorated key) r) as Hr by (by rewrite Hperm, Forall_reverse).
    split; [|split].
    + by rewrite reverse_Permutation, Hperm, reverse_Permutation, decorate_snd.
    + apply (StronglySorted_decorated (flip key_le)).
      * intros x y Hx Hy Hxy. by apply key_le_field_le.
      * by apply Forall_reverse.
      * by apply StronglySorted_reverse.
    + intros v. rewrite filter_decorated by (by apply Forall_reverse).
      rewrite filter_reverse, Hfilter, filter_reverse, reverse_involutive.
      by rewrite <- filter_decorated, decorate_snd.
  - destruct (sort_keyed_spec (decorate key <$> st) Hstr) as (r & -> & Hperm & Hsorted & Hfilter).
    simpl. eexists. split; [done|].
    assert (Forall (decorated key) r) as Hr by (by rewrite Hperm).
    split; [|split].
    + by rewrite Hperm, decorate_snd.
    + apply (StronglySorted_decorated key_le); [|done..].
      intros x y. apply key_le_field_le.
    + intros v. rewrite filter_decorated, Hfilter by done.
      by rewrite <- filter_decorated, decorate_snd.
Qed.

Lemma sort_posts_by_spec (st : list post) (is_desc : bool) :
  Forall (has_str key) st →
  ∃ out, sort_posts_by_ key is_desc st = (st, Ok out)
         ∧ stable_sort_of key is_desc st out.
Proof.
  intros Hst. destruct (sorted_by_field st is_desc Hst) as (out & Hout & Hspec).
  exists out. split; [|done]. unfold sort_posts_by_. unfold_M. by rewrite Hout.
Qed.

End SortPosts.

(** ** Searching *)

Section Search.

(** [str.lower] *)
Variable lower : string → string.

Lemma field_matches_spec q key p :
  field_matches lower q key p = true
  ↔ ∃ s, p !! key = Some (VStr s) ∧ contains (lower q) (lower s) = true.
Proof.
  unfold field_matches. destruct (p !! key) as [[n|s|]|].
  2: { split; [eauto|]. by intros (? & [= <-] & ?). }
  all: split; [done|by intros (? & ? & ?)].
Qed.

Lemma opt_truthy_given (a : args) name :
  opt_truthy str_truthy (a !! name) = true ↔ given a name.
Proof.
  unfold given. destruct (a !! name) as [s|]; simpl.
  - unfold str_truthy. rewrite bool_decide_eq_true. split; [eauto|].
    by intros (? & [= <-] & ?).
  - split; [done|]. by intros (? & ? & ?).
Qed.

Lemma opt_truthy_not_given (a : args) name :
  opt_truthy str_truthy (a !! name) = false ↔ ¬ given a name.
Proof. rewrite <- opt_truthy_given. by destruct (opt_truthy _ _). Qed.

Lemma find_str_no_query search_str search_key st :
  search_str = "" ∨ search_key = "" →
  find_str lower search_str search_key st = (st, Ok []).
Proof. by intros [-> | ->]; unfold find_str; [|destruct (str_truthy search_str)]. Qed.

Lemma find_str_unfold search_str search_key st :
  search_str ≠ "" → search_key ≠ "" →
  find_str lower search_str search_key st
  = (st, list_comp_if
           (fun post =>
              v ← getitem post search_key;
              hay ← method_lower lower v;
              Ok (contains (lower search_str) hay))
           st).
Proof.
  intros Hq Hk. unfold find_str, str_truthy.
  by rewrite !bool_decide_eq_true_2.
Qed.

Lemma find_str_strings search_str search_key st :
  search_str ≠ "" → search_key ≠ "" →
  Forall (has_str search_key) st →
  find_str lower search_str search_key st
  = (st, Ok (filter (fun p => field_matches lower search_str search_key p) st)).
Proof.
  intros Hq Hk Hst. rewrite find_str_unfold by done. f_equal.
  induction Hst as [|p st [s Hp] _ IH]; [done|].
  simpl. rewrite IH, (proj2 (getitem_Ok _ _ _) Hp). simpl.
  assert (field_matches lower search_str search_key p
          = contains (lower search_str) (lower s)) as Hm.
  { unfold field_matches. by rewrite Hp. }
  rewrite filter_cons. case_decide as Hd; rewrite Hm in Hd;
    by destruct (contains (lower search_str) (lower s)).
Qed.

Lemma find_str_raises search_str search_key st :
  search_str ≠ "" → search_key ≠ "" →
  Exists (fun p => ¬ has_str search_key p) st →
  ∃ e, find_str lower search_str search_key st = (st, Raise e)
       ∧ (e = KeyError search_key ∨ e = AttributeError).
Proof.
  intros Hq Hk Hst. rewrite find_str_unfold by done.
  induction st as [|p st IH]; [by apply Exists_nil in Hst|].
  simpl. destruct (p !! search_key) as [v|] eqn:Hp.
  - rewrite (proj2 (getitem_Ok _ _ _) Hp). simpl. destruct v as [n|s|]; simpl.
    + exists AttributeError. auto.
    + apply Exists_cons in Hst as [Hbad|Hst]; [destruct Hbad; by exists s|].
      destruct (IH Hst) as (e & He & Hkind). injection He as ->. simpl.
      by exists e.
    + exists AttributeError. auto.
  - exists (KeyError search_key).
    by rewrite (proj2 (getitem_Raise _ _ _) (conj Hp eq_refl)); auto.
Qed.

Lemma get_posts_search_title a st :
  given a "title" →
  get_posts_search lower a st
  = (found ← find_in_title lower (default "" (a !! "title")); mret (BList found, 200)) st.
Proof.
  intros H. unfold get_posts_search.
  by rewrite (proj2 (opt_truthy_given _ _) H).
Qed.

Lemma get_posts_search_content a st :
  ¬ given a "title" → given a "content" →
  get_posts_search lower a st
  = (found ← find_in_content lower (default "" (a !! "content")); mret (BList found, 200)) st.
Proof.
  intros Ht Hc. unfold get_posts_search.
  by rewrite (proj2 (opt_truthy_not_given _ _) Ht), (proj2 (opt_truthy_given _ _) Hc).
Qed.

Lemma get_posts_search_none a st :
  ¬ given a "title" → ¬ given a "content" →
  get_posts_search lower a st = (st, Ok (BList [], 404)).
Proof.
  intros Ht Hc. unfold get_posts_search.
  by rewrite (proj2 (opt_truthy_not_given _ _) Ht), (proj2 (opt_truthy_not_given _ _) Hc).
Qed.

Lemma get_posts_search_by_title a st title :
  a !! "title" = Some title → title ≠ "" →
  Forall (has_str "title") st →
  get_posts_search lower a st
  = (st, Ok (BList (filter (fun p => field_matches lower title "title" p) st), 200)).
Proof.
  intros Ht Hne Hst. rewrite get_posts_search_title by (by exists title).
  rewrite Ht. simpl. unfold find_in_title, mbind, M_bind.
  by rewrite find_str_strings.
Qed.

Lemma get_posts_search_title_raises a st title :
  a !! "title" = Some title → title ≠ "" →
  Exists (fun p => ¬ has_str "title" p) st →
  ∃ e, get_posts_search lower a st = (st, Raise e)
       ∧ (e = KeyError "title" ∨ e = AttributeError).
Proof.
  intros Ht Hne Hst. rewrite get_posts_search_title by (by exists title).
  rewrite Ht. simpl.
  destruct (find_str_raises title "title" st Hne) as (e & He & Hkind); [done|done|].
  exists e. split; [|done]. unfold find_in_title, mbind, M_bind. by rewrite He.
Qed.

Lemma get_posts_search_content_raises a st content :
  ¬ given a "title" → a !! "content" = Some content → content ≠ "" →
  Exists (fun p => ¬ has_str "content" p) st →
  ∃ e, get_posts_search lower a st = (st, Raise e)
       ∧ (e = KeyError "content" ∨ e = AttributeError).
Proof.
  intros Hnt Hc Hne Hst.
  rewrite get_posts_search_content by (done || by exists content).
  rewrite Hc. simpl.
  destruct (find_str_raises content "content" st Hne) as (e & He & Hkind); [done|done|].
  exists e. split; [|done]. unfold find_in_content, mbind, M_bind. by rewrite He.
Qed.

Lemma get_posts_search_by_content a st content :
  ¬ given a "title" → a !! "content" = Some content → content ≠ "" →
  Forall (has_str "content") st →
  get_posts_search lower a st
  = (st, Ok (BList (filter (fun p => field_matches lower content "content" p) st), 200)).
Proof.
  intros Hnt Hc Hne Hst.
  rewrite get_posts_search_content by (done || by exists content).
  rewrite Hc. simpl. unfold find_in_content, mbind, M_bind.
  by rewrite find_str_strings.
Qed.

End Search.

(** ** The claims *)

(** C1. For every run of insertions into a store whose posts carry integer
    ids — no deletion in between —, each call succeeds and appends its post,
    the ids returned are strictly increasing, and if the ids of the store
    were pairwise distinct they still are afterwards.  From a store in which
    some post carries no integer id, no insertion returns: the first call
    fails and leaves the store as it was. *)
Theorem insert_ids_increasing_unique (st : list post) (reqs : list (value * value)) :
  (Forall has_int_id st →
   ∃ ns : list Z,
     insert_all reqs st = (st ++ new_posts ns reqs, Ok (new_posts ns reqs))
     ∧ length ns = length reqs
     ∧ int_ids (new_posts ns reqs) = ns
     ∧ StronglySorted Z.lt ns
     ∧ (NoDup (int_ids st) → NoDup (int_ids (st ++ new_posts ns reqs))))
  ∧ (¬ Forall has_int_id st → reqs ≠ [] →
     insert_all reqs st = (st, Raise (KeyError invalid_post_data))).
Proof.
  split.
  - intros Hst.
    destruct (insert_all_ints reqs st Hst) as (ns & Hrun & Hlen & Hsorted & Hbound).
    assert (int_ids (new_posts ns reqs) = ns) as Hids.
    { clear -Hlen. revert reqs Hlen.
      induction ns as [|n ns IH]; intros [|r reqs] Hlen; try done.
      unfold int_ids, new_posts. simpl. rewrite int_id_new_post. simpl.
      f_equal. apply IH. simpl in Hlen. lia. }
    exists ns. repeat split; try done.
    intros Hnd. rewrite int_ids_app, Hids. apply NoDup_app. repeat split; [done| |].
    + intros m Hm Hin. rewrite Forall_forall in Hbound.
      specialize (Hbound _ Hin). rewrite Forall_forall in Hbound.
      specialize (Hbound _ Hm). lia.
    + clear -Hsorted. induction Hsorted as [|n ns _ IH Hn]; constructor; [|done].
      intros Hin. rewrite Forall_forall in Hn. specialize (Hn _ Hin). lia.
  - intros Hbad Hreqs. destruct reqs as [|req reqs]; [done|].
    simpl. unfold mbind at 1, M_bind at 1.
    by rewrite (add_blog_post_invalid st req.1 req.2 Hbad).
Qed.

Lemma insert_ids_increasing_unique_witness :
  ∃ ns : list Z,
    insert_all [(VStr "A", VStr "B"); (VStr "C", VStr "D")] POSTS
    = (POSTS ++ new_posts ns [(VStr "A", VStr "B"); (VStr "C", VStr "D")],
       Ok (new_posts ns [(VStr "A", VStr "B"); (VStr "C", VStr "D")]))
    ∧ length ns = 2%nat
    ∧ int_ids (new_posts ns [(VStr "A", VStr "B"); (VStr "C", VStr "D")]) = ns
    ∧ StronglySorted Z.lt ns
    ∧ (NoDup (int_ids POSTS)
       → NoDup (int_ids (POSTS ++ new_posts ns [(VStr "A", VStr "B"); (VStr "C", VStr "D")]))).
Proof.
  destruct (insert_ids_increasing_unique POSTS
              [(VStr "A", VStr "B"); (VStr "C", VStr "D")]) as [H _].
  apply H. repeat constructor; eexists; reflexivity.
Defined.

(** C4, as the code has it.  [get_next_id] answers 1 on the empty list and
    the greatest id plus one on a list whose posts all carry an integer id.
    It fails exactly when the list is not empty and some post has no
    integer under ["id"] — the key is missing, or holds a string or [None]
    — and the failure is always the [KeyError] with the fixed message. *)
Theorem get_next_id_spec (posts : list post) :
  (posts = [] → get_next_id posts = Ok (VInt 1))
  ∧ (posts ≠ [] → Forall has_int_id posts →
     ∃ m, get_next_id posts = Ok (VInt (m + 1))
          ∧ m ∈ int_ids posts
          ∧ Forall (fun n => n ≤ m) (int_ids posts))
  ∧ (get_next_id posts = Raise (KeyError invalid_post_data)
     ↔ posts ≠ [] ∧ Exists (fun p => ¬ has_int_id p) posts)
  ∧ (∀ e, get_next_id posts = Raise e → e = KeyError invalid_post_data).
Proof.
  split; [by intros ->|]. split.
  { intros Hne Hall. destruct posts as [|p posts]; [done|].
    by apply get_next_id_ints. }
  split; [|apply get_next_id_raises].
  split.
  - intros Hraise. split.
    + by intros ->.
    + apply not_Forall_Exists; [apply _|]. intros Hall.
      destruct posts as [|p posts]; [done|].
      destruct (get_next_id_ints p posts Hall) as (m & Hm & _). congruence.
  - intros [Hne Hex]. destruct (get_next_id posts) as [v|e] eqn:Hres.
    + apply get_next_id_Ok in Hres as [->|Hall]; [done|].
      apply Exists_exists in Hex as (p & Hp & Hbad).
      rewrite Forall_forall in Hall. by destruct Hbad; apply Hall.
    + by rewrite (get_next_id_raises _ _ Hres).
Qed.

Lemma get_next_id_spec_witness :
  ∃ m, get_next_id POSTS = Ok (VInt (m + 1))
       ∧ m ∈ int_ids POSTS
       ∧ Forall (fun n => n ≤ m) (int_ids POSTS).
Proof.
  destruct (get_next_id_spec POSTS) as (_ & H & _).
  apply H; [done|]. repeat constructor; eexists; reflexivity.
Defined.

(** C5. With a body that carries a title and a content: updating an id
    that no post has answers 404 and leaves the store as it was; updating
    an id that some post has changes the first post with that id, and only
    under its keys ["title"] and ["content"] — its id and the other keys,
    every other post, the length and the order of the store are kept. *)
Theorem update_post_frame (st : list post) (post_id : Z) (post_json : dict)
    (title content : value) :
  post_json !! "title" = Some title →
  post_json !! "content" = Some content →
  (Forall (fun p => ¬ has_id post_id p) st →
     update_post post_id post_json st
     = (st, Ok (BMessage ("Post with id= " +:+ str_of_int post_id +:+ " not found"), 404)))
  ∧ (Exists (has_id post_id) st →
     ∃ i p st',
       first_with_id post_id st i p
       ∧ update_post post_id post_json st = (st', Ok (BPost (updated title content p), 200))
       ∧ st' = <[i := updated title content p]> st
       ∧ length st' = length st
       ∧ st' !! i = Some (updated title content p)
       ∧ (∀ j, j ≠ i → st' !! j = st !! j)
       ∧ updated title content p !! "id" = Some (VInt post_id)
       ∧ updated title content p !! "title" = Some title
       ∧ updated title content p !! "content" = Some content
       ∧ (∀ k, k ≠ "title" → k ≠ "content" → updated title content p !! k = p !! k)).
Proof.
  intros Ht Hc. split.
  - intros Habs. unfold update_post. unfold mbind at 1, M_bind at 1.
    by rewrite (get_blog_post_by_id_absent _ _ Habs).
  - intros Hex. destruct (exists_first_with_id _ _ Hex) as (i & p & Hfirst).
    pose proof Hfirst as (Hi & Hp & _).
    assert (i < length st)%nat as Hlt by (by eapply lookup_lt_Some).
    exists i, p, (<[i := updated title content p]> st).
    split; [done|]. split.
    { unfold update_post. unfold mbind at 1, M_bind at 1.
      rewrite (get_blog_post_by_id_found _ _ _ _ Hfirst), (has_id_truthy _ _ Hp).
      apply getitem_Ok in Ht, Hc.
      unfold mbind at 1, M_bind at 1, lift at 1. rewrite Ht.
      unfold mbind at 1, M_bind at 1. rewrite (setitem_at _ _ _ _ _ Hi).
      unfold mbind at 1, M_bind at 1, lift at 1. rewrite Hc.
      unfold mbind at 1, M_bind at 1.
      erewrite setitem_at by (by apply list_lookup_insert_eq).
      rewrite list_insert_insert_eq. unfold deref. unfold_M.
      by rewrite list_lookup_insert_eq. }
    split; [done|]. split; [apply length_insert|].
    split; [by apply list_lookup_insert_eq|].
    split; [by intros j Hj; apply list_lookup_insert_ne|].
    apply has_id_lookup in Hp. unfold updated.
    split; [by rewrite !lookup_insert_ne|].
    split; [by rewrite lookup_insert_ne, lookup_insert_eq|].
    split; [by rewrite lookup_insert_eq|].
    intros k Hk1 Hk2. by rewrite !lookup_insert_ne.
Qed.

Lemma update_post_frame_witness :
  update_post 7 {[ "title" := VStr "T"; "content" := VStr "C" ]} POSTS
  = (POSTS, Ok (BMessage "Post with id= 7 not found", 404))
  ∧ ∃ i p st',
      first_with_id 2 POSTS i p
      ∧ update_post 2 {[ "title" := VStr "T"; "content" := VStr "C" ]} POSTS
        = (st', Ok (BPost (updated (VStr "T") (VStr "C") p), 200))
      ∧ st' = <[i := updated (VStr "T") (VStr "C") p]> POSTS.
Proof.
  split.
  - destruct (update_post_frame POSTS 7 {[ "title" := VStr "T"; "content" := VStr "C" ]}
                (VStr "T") (VStr "C")) as [H _]; [reflexivity|reflexivity|].
    apply H. repeat constructor; discriminate.
  - destruct (update_post_frame POSTS 2 {[ "title" := VStr "T"; "content" := VStr "C" ]}
                (VStr "T") (VStr "C")) as [_ H]; [reflexivity|reflexivity|].
    destruct H as (i & p & st' & H1 & H2 & H3 & _).
    + apply Exists_cons_tl, Exists_cons_hd. reflexivity.
    + by exists i, p, st'.
Defined.

(** C6. Deleting an id that no post has answers 404 with the message
    [Post with id= N not found] and leaves the store as it was; deleting an
    id that some post has removes the first post with that id, keeps the
    others in order, and answers 200 with the message
    [Post with id N has been deleted successfully.] *)
Theorem delete_post_spec (st : list post) (post_id : Z) :
  (Forall (fun p => ¬ has_id post_id p) st →
     delete_post post_id st
     = (st, Ok (BMessage ("Post with id= " +:+ str_of_int post_id +:+ " not found"), 404)))
  ∧ (Exists (has_id post_id) st →
     ∃ i p,
       first_with_id post_id st i p
       ∧ delete_post post_id st
         = (delete i st,
            Ok (BMessage ("Post with id " +:+ str_of_int post_id
                          +:+ " has been deleted successfully."), 200))
       ∧ st ≡ₚ p :: delete i st).
Proof.
  split.
  - intros Habs. unfold delete_post. unfold mbind at 1, M_bind at 1.
    by rewrite (get_blog_post_by_id_absent _ _ Habs).
  - intros Hex. destruct (exists_first_with_id _ _ Hex) as (i & p & Hfirst).
    pose proof Hfirst as (Hi & Hp & Hmin).
    exists i, p. split; [done|]. split.
    + unfold delete_post. unfold mbind at 1, M_bind at 1.
      rewrite (get_blog_post_by_id_found _ _ _ _ Hfirst), (has_id_truthy _ _ Hp).
      unfold_M. rewrite (list_remove_first st i p Hi); [done|].
      intros j q Hj Hlt ->. by apply (Hmin j p).
    + by apply delete_Permutation.
Qed.

Lemma delete_post_spec_witness :
  delete_post 7 POSTS = (POSTS, Ok (BMessage "Post with id= 7 not found", 404))
  ∧ ∃ i p,
      first_with_id 1 POSTS i p
      ∧ delete_post 1 POSTS
        = (delete i POSTS,
           Ok (BMessage "Post with id 1 has been deleted successfully.", 200))
      ∧ POSTS ≡ₚ p :: delete i POSTS.
Proof.
  split.
  - destruct (delete_post_spec POSTS 7) as [H _].
    apply H. repeat constructor; discriminate.
  - destruct (delete_post_spec POSTS 1) as [_ H].
    apply H. apply Exists_cons_hd. reflexivity.
Defined.

(** C4 as the claim words it fails here: every post of this store has an
    ["id"] field, yet [get_next_id] fails, because the field holds a
    string. *)
Lemma get_next_id_fails_on_string_id :
  Forall (fun p : post => is_Some (p !! "id"))
    [ {[ "id" := VStr "7"; "title" := VStr "T"; "content" := VStr "C" ]} ]
  ∧ get_next_id [ {[ "id" := VStr "7"; "title" := VStr "T"; "content" := VStr "C" ]} ]
    = Raise (KeyError invalid_post_data).
Proof. split; [|reflexivity]. repeat constructor. by eexists. Qed.

(** C7 as the claim words it fails here: [PUT /api/posts/1] with a number
    as title is answered 200, and on the store it leaves the sort by title
    raises [TypeError]. *)
Lemma sort_posts_by_raises_on_number_title :
  (update_post 1 number_title POSTS).2
  = Ok (BPost {[ "id" := VInt 1; "title" := VInt 5; "content" := VStr "C" ]}, 200)
  ∧ sort_posts_by_ "title" false POSTS_number_title
    = (POSTS_number_title, Raise TypeError)
  ∧ sort_posts_by_ "title" true POSTS_number_title
    = (POSTS_number_title, Raise TypeError).
Proof. split; [|split]; vm_compute; reflexivity. Qed.

(** C7, as the code has it.  On a store whose posts hold a string under
    the key — as they do under ["title"] and ["content"] until a request
    stores another value there —, [sort_posts_by_] answers a list with
    the same posts, in the lexicographic order of the key (ascending, or
    descending when [is_desc]), in which posts with equal values keep the
    order of the store; the store itself is left as it was. *)
Theorem sort_posts_by_stable (st : list post) (key : string) (is_desc : bool) :
  Forall (has_str key) st →
  ∃ out,
    sort_posts_by_ key is_desc st = (st, Ok out)
    ∧ out ≡ₚ st
    ∧ StronglySorted (field_order key is_desc) out
    ∧ ∀ v, filter (fun p => field key p = v) out
           = filter (fun p => field key p = v) st.
Proof. intros Hst. by apply sort_posts_by_spec. Qed.

Lemma sort_posts_by_stable_witness :
  ∃ out,
    sort_posts_by_ "title" true POSTS = (POSTS, Ok out)
    ∧ out ≡ₚ POSTS
    ∧ StronglySorted (field_order "title" true) out
    ∧ ∀ v, filter (fun p => field "title" p = v) out
           = filter (fun p => field "title" p = v) POSTS.
Proof.
  apply (sort_posts_by_stable POSTS "title" true).
  repeat constructor; eexists; reflexivity.
Defined.

(** The example of the specification: by title, descending, the seed
    store comes out with "Second post" first. *)
Example sort_posts_by_title_desc :
  ∃ out, sort_posts_by_ "title" true POSTS = (POSTS, Ok out)
         ∧ field "title" <$> out = [VStr "Second post"; VStr "First post"].
Proof. eexists. split; reflexivity. Qed.

(** C3 as the claim words it fails here: [sort] is supplied without
    [direction], and the answer is the plain listing with status 200; and
    with a valid [sort] and [direction], on the store left by a PUT with a
    number as title, the handler raises [TypeError]. *)
Lemma get_posts_lone_sort_lists_all :
  ({[ "sort" := "title" ]} : args) !! "sort" = Some "title"
  ∧ ({[ "sort" := "title" ]} : args) !! "direction" = None
  ∧ get_posts {[ "sort" := "title" ]} POSTS = (POSTS, Ok (BList POSTS, 200))
  ∧ get_posts {[ "sort" := "title"; "direction" := "asc" ]} POSTS_number_title
    = (POSTS_number_title, Raise TypeError).
Proof. split; [|split; [|split]]; vm_compute; reflexivity. Qed.

(** C3, as the code has it.  Unless both [sort] and [direction] are given
    with a non-empty value, the answer is the plain listing with status 200.
    When both are given and [sort] is not one of [title], [content] or
    [direction] is not one of [asc], [desc], the answer is 400 with the
    message [Wrong sort or direction value].  When both are given and
    valid, and the posts of the store hold a string under the field to
    sort on, the answer is 200 with the posts in stable sorted order. *)
Theorem get_posts_spec (st : list post) (a : args) :
  (¬ (given a "sort" ∧ given a "direction") →
     get_posts a st = (st, Ok (BList st, 200)))
  ∧ (∀ sort dir,
       a !! "sort" = Some sort → a !! "direction" = Some dir →
       sort ≠ "" → dir ≠ "" →
       ¬ ((sort = "title" ∨ sort = "content") ∧ (dir = "asc" ∨ dir = "desc")) →
       get_posts a st = (st, Ok (BMessage "Wrong sort or direction value", 400)))
  ∧ (∀ sort dir,
       a !! "sort" = Some sort → a !! "direction" = Some dir →
       sort = "title" ∨ sort = "content" → dir = "asc" ∨ dir = "desc" →
       Forall (has_str sort) st →
       ∃ out, get_posts a st = (st, Ok (BList out, 200))
              ∧ stable_sort_of sort (bool_decide (dir = "desc")) st out).
Proof.
  split; [|split].
  - intros Hnot. unfold get_posts.
    destruct (opt_truthy str_truthy (a !! "sort")) eqn:Hs; [|done].
    destruct (opt_truthy str_truthy (a !! "direction")) eqn:Hd; [|done].
    destruct Hnot. by rewrite <- !opt_truthy_given.
  - intros sort dir Hs Hd Hsne Hdne Hbad. unfold get_posts. rewrite Hs, Hd. simpl.
    unfold str_truthy. rewrite !bool_decide_eq_true_2 by done. simpl.
    destruct ((bool_decide (sort = "title") || bool_decide (sort = "content"))
              && (bool_decide (dir = "asc") || bool_decide (dir = "desc"))) eqn:Hok; [|done].
    destruct Hbad. apply andb_true_iff in Hok as [H1 H2].
    apply orb_true_iff in H1, H2. by rewrite !bool_decide_eq_true in H1, H2.
  - intros sort dir Hs Hd Hsort Hdir Hst. unfold get_posts. rewrite Hs, Hd. simpl.
    assert (sort ≠ "" ∧ dir ≠ "") as [Hsne Hdne].
    { by destruct Hsort as [-> | ->], Hdir as [-> | ->]. }
    unfold str_truthy. rewrite !bool_decide_eq_true_2 by done. simpl.
    assert ((bool_decide (sort = "title") || bool_decide (sort = "content"))
            && (bool_decide (dir = "asc") || bool_decide (dir = "desc")) = true) as ->.
    { apply andb_true_iff. rewrite !orb_true_iff, !bool_decide_eq_true. done. }
    destruct (sort_posts_by_spec sort st (bool_decide (dir = "desc")) Hst)
      as (out & Hout & Hspec).
    exists out. split; [|done]. unfold mbind, M_bind. by rewrite Hout.
Qed.

Lemma get_posts_spec_witness :
  get_posts {[ "direction" := "asc" ]} POSTS = (POSTS, Ok (BList POSTS, 200))
  ∧ get_posts {[ "sort" := "title"; "direction" := "up" ]} POSTS
    = (POSTS, Ok (BMessage "Wrong sort or direction value", 400))
  ∧ ∃ out,
      get_posts {[ "sort" := "title"; "direction" := "desc" ]} POSTS
      = (POSTS, Ok (BList out, 200))
      ∧ stable_sort_of "title" (bool_decide ("desc" = "desc")) POSTS out.
Proof.
  split; [|split].
  - destruct (get_posts_spec POSTS {[ "direction" := "asc" ]}) as (H & _ & _).
    apply H. intros [(s & Hs & _) _]. discriminate Hs.
  - destruct (get_posts_spec POSTS {[ "sort" := "title"; "direction" := "up" ]})
      as (_ & H & _).
    apply (H "title" "up"); [reflexivity|reflexivity|discriminate|discriminate|].
    intros [_ [?|?]]; discriminate.
  - destruct (get_posts_spec POSTS {[ "sort" := "title"; "direction" := "desc" ]})
      as (_ & _ & H).
    apply (H "title" "desc"); [reflexivity|reflexivity|by left|by right|].
    repeat constructor; eexists; reflexivity.
Defined.

(** C2 as the claim words it fails here: with a field name that is not
    [title] or [content] the search of the seed store fails. *)
Lemma find_str_fails_on_other_field :
  find_str ascii_lower "post" "author" POSTS = (POSTS, Raise (KeyError "author"))
  ∧ find_str ascii_lower "post" "id" POSTS = (POSTS, Raise AttributeError).
Proof. split; vm_compute; reflexivity. Qed.

(** C2, as the code has it, for [str.lower] whatever it computes.
    [find_str] answers the empty list whenever the query or the field name
    is empty.  With both non-empty, on a store whose posts hold a string
    under the field, it answers, in the order of the store, the posts in
    whose string, put in lower case, the query, put in lower case, occurs;
    and when some post holds no string under the field it fails with
    [KeyError] or [AttributeError].  The store is left as it was. *)
Theorem find_str_spec (lower : string → string) (st : list post)
    (search_str search_key : string) :
  (search_str = "" ∨ search_key = "" →
     find_str lower search_str search_key st = (st, Ok []))
  ∧ (search_str ≠ "" → search_key ≠ "" → Forall (has_str search_key) st →
     ∃ found,
       find_str lower search_str search_key st = (st, Ok found)
       ∧ found = filter (fun p => field_matches lower search_str search_key p) st
       ∧ ∀ p, p ∈ found
              ↔ p ∈ st
                ∧ ∃ s pre suf,
                    p !! search_key = Some (VStr s)
                    ∧ lower s = pre +:+ lower search_str +:+ suf)
  ∧ (search_str ≠ "" → search_key ≠ "" →
     Exists (fun p => ¬ has_str search_key p) st →
     ∃ e, find_str lower search_str search_key st = (st, Raise e)
          ∧ (e = KeyError search_key ∨ e = AttributeError)).
Proof.
  split; [apply find_str_no_query|]. split; [|apply find_str_raises].
  intros Hq Hk Hst. eexists. split; [by apply find_str_strings|]. split; [done|].
  intros p. rewrite list_elem_of_filter, Is_true_true, field_matches_spec. split.
  - intros [(s & Hs & Hin) Hp]. split; [done|].
    apply contains_spec in Hin as (pre & suf & Hin). by exists s, pre, suf.
  - intros [Hp (s & pre & suf & Hs & Hin)]. split; [|done].
    exists s. split; [done|]. apply contains_spec. by exists pre, suf.
Qed.

Lemma find_str_spec_witness :
  find_str ascii_lower "" "title" POSTS = (POSTS, Ok [])
  ∧ (∃ found,
       find_str ascii_lower "POST" "title" POSTS = (POSTS, Ok found)
       ∧ found = filter (fun p => field_matches ascii_lower "POST" "title" p) POSTS
       ∧ ∀ p, p ∈ found
              ↔ p ∈ POSTS
                ∧ ∃ s pre suf,
                    p !! "title" = Some (VStr s)
                    ∧ ascii_lower s = pre +:+ ascii_lower "POST" +:+ suf)
  ∧ ∃ e, find_str ascii_lower "post" "author" POSTS = (POSTS, Raise e)
         ∧ (e = KeyError "author" ∨ e = AttributeError).
Proof.
  split; [|split].
  - destruct (find_str_spec ascii_lower POSTS "" "title") as (H & _ & _).
    apply H. by left.
  - destruct (find_str_spec ascii_lower POSTS "POST" "title") as (_ & H & _).
    apply H; [discriminate|discriminate|].
    repeat constructor; eexists; reflexivity.
  - destruct (find_str_spec ascii_lower POSTS "post" "author") as (_ & _ & H).
    apply H; [discriminate|discriminate|].
    apply Exists_cons_hd. intros [s Hs]. discriminate Hs.
Defined.

(** The example of the specification: the query [post] on the titles of
    the seed store finds both posts. *)
Example find_str_post_in_titles :
  find_str ascii_lower "post" "title" POSTS = (POSTS, Ok POSTS).
Proof. vm_compute. reflexivity. Qed.

(** C8 as the claim words it fails here: the [title] parameter is
    supplied, with the empty value, and the answer is 404; and with a
    non-empty [title], on the store left by a PUT with a number as title,
    the handler raises [AttributeError]. *)
Lemma get_posts_search_empty_title_is_404 :
  ({[ "title" := "" ]} : args) !! "title" = Some ""
  ∧ get_posts_search ascii_lower {[ "title" := "" ]} POSTS = (POSTS, Ok (BList [], 404))
  ∧ get_posts_search ascii_lower {[ "title" := "post" ]} POSTS_number_title
    = (POSTS_number_title, Raise AttributeError).
Proof. split; [|split]; vm_compute; reflexivity. Qed.

(** C8, as the code has it, for [str.lower] whatever it computes.  A
    search request that gives neither [title] nor [content] a non-empty
    value is answered 404 with the empty list.  When [title] is given and
    the posts of the store hold a string as title, the answer is 200 with
    the posts in whose title, put in lower case, the query, put in lower
    case, occurs (the list is empty when none does); when some post holds
    no string as title the handler raises.  Otherwise, when [content] is
    given, the same holds of the contents.  The store is left as it was. *)
Theorem get_posts_search_spec (lower : string → string) (st : list post) (a : args) :
  (¬ given a "title" → ¬ given a "content" →
     get_posts_search lower a st = (st, Ok (BList [], 404)))
  ∧ (∀ title, a !! "title" = Some title → title ≠ "" →
       (Forall (has_str "title") st →
          get_posts_search lower a st
          = (st, Ok (BList (filter (fun p => field_matches lower title "title" p) st), 200)))
       ∧ (Exists (fun p => ¬ has_str "title" p) st →
          ∃ e, get_posts_search lower a st = (st, Raise e)
               ∧ (e = KeyError "title" ∨ e = AttributeError)))
  ∧ (∀ content, ¬ given a "title" → a !! "content" = Some content → content ≠ "" →
       (Forall (has_str "content") st →
          get_posts_search lower a st
          = (st, Ok (BList (filter (fun p => field_matches lower content "content" p) st), 200)))
       ∧ (Exists (fun p => ¬ has_str "content" p) st →
          ∃ e, get_posts_search lower a st = (st, Raise e)
               ∧ (e = KeyError "content" ∨ e = AttributeError))).
Proof.
  split; [apply get_posts_search_none|]. split.
  - intros title Ht Hne. split.
    + by apply get_posts_search_by_title.
    + by apply (get_posts_search_title_raises lower a st title).
  - intros content Hnt Hc Hne. split.
    + by apply get_posts_search_by_content.
    + by apply (get_posts_search_content_raises lower a st content).
Qed.

Lemma get_posts_search_spec_witness :
  get_posts_search ascii_lower ∅ POSTS = (POSTS, Ok (BList [], 404))
  ∧ get_posts_search ascii_lower {[ "title" := "zzz" ]} POSTS
    = (POSTS, Ok (BList (filter (fun p => field_matches ascii_lower "zzz" "title" p) POSTS), 200))
  ∧ get_posts_search ascii_lower {[ "content" := "SECOND" ]} POSTS
    = (POSTS,
       Ok (BList (filter (fun p => field_matches ascii_lower "SECOND" "content" p) POSTS), 200))
  ∧ ∃ e, get_posts_search ascii_lower {[ "title" := "post" ]} POSTS_number_title
         = (POSTS_number_title, Raise e)
         ∧ (e = KeyError "title" ∨ e = AttributeError).
Proof.
  split; [|split; [|split]].
  - destruct (get_posts_search_spec ascii_lower POSTS ∅) as (H & _ & _).
    apply H; intros (s & Hs & _); discriminate Hs.
  - destruct (get_posts_search_spec ascii_lower POSTS {[ "title" := "zzz" ]}) as (_ & H & _).
    destruct (H "zzz") as [H1 _]; [reflexivity|discriminate|].
    apply H1. repeat constructor; eexists; reflexivity.
  - destruct (get_posts_search_spec ascii_lower POSTS {[ "content" := "SECOND" ]})
      as (_ & _ & H).
    destruct (H "SECOND") as [H1 _]; [|reflexivity|discriminate|].
    + intros (s & Hs & _). discriminate Hs.
    + apply H1. repeat constructor; eexists; reflexivity.
  - destruct (get_posts_search_spec ascii_lower POSTS_number_title {[ "title" := "post" ]})
      as (_ & H & _).
    destruct (H "post") as [_ H2]; [reflexivity|discriminate|].
    apply H2. apply Exists_cons_hd. intros [s Hs]. discriminate Hs.
Defined.

(** C9 as the claim words it fails here: both parameters are supplied
    with non-empty values, and on the store left by a PUT with a number as
    title the answer is not a list with status 200: the handler raises. *)
Lemma get_posts_search_both_raises_on_number_title :
  ({[ "title" := "post"; "content" := "first" ]} : args) !! "title" = Some "post"
  ∧ ({[ "title" := "post"; "content" := "first" ]} : args) !! "content" = Some "first"
  ∧ get_posts_search ascii_lower {[ "title" := "post"; "content" := "first" ]}
      POSTS_number_title
    = (POSTS_number_title, Raise AttributeError).
Proof. split; [|split]; vm_compute; reflexivity. Qed.

(** C9, as the code has it, for [str.lower] whatever it computes.  When
    both [title] and [content] are given with non-empty values, only the
    title is searched: the answer is that of [find_in_title] with status
    200, whatever the value of [content].  On a store whose posts hold a
    string as title it lists the posts in whose title, put in lower case,
    the query, put in lower case, occurs; when some post holds no string as
    title the handler raises. *)
Theorem get_posts_search_title_first (lower : string → string) (st : list post)
    (a : args) (title content : string) :
  a !! "title" = Some title → a !! "content" = Some content →
  title ≠ "" → content ≠ "" →
  get_posts_search lower a st
  = (found ← find_in_title lower title; mret (BList found, 200)) st
  ∧ (∀ other, get_posts_search lower (<["content" := other]> a) st
              = get_posts_search lower a st)
  ∧ get_posts_search lower (delete "content" a) st = get_posts_search lower a st
  ∧ (Forall (has_str "title") st →
     get_posts_search lower a st
     = (st, Ok (BList (filter (fun p => field_matches lower title "title" p) st), 200)))
  ∧ (Exists (fun p => ¬ has_str "title" p) st →
     ∃ e, get_posts_search lower a st = (st, Raise e)
          ∧ (e = KeyError "title" ∨ e = AttributeError)).
Proof.
  intros Ht Hc Htne Hcne.
  assert (given a "title") as Hgiven by (by exists title).
  split; [|split; [|split; [|split]]].
  - rewrite get_posts_search_title by done. by rewrite Ht.
  - intros other. rewrite !get_posts_search_title; [|done|].
    + by rewrite lookup_insert_ne.
    + exists title. by rewrite lookup_insert_ne.
  - rewrite !get_posts_search_title; [|done|].
    + by rewrite lookup_delete_ne.
    + exists title. by rewrite lookup_delete_ne.
  - intros Hst. by apply get_posts_search_by_title.
  - intros Hst. by apply (get_posts_search_title_raises lower a st title).
Qed.

Lemma get_posts_search_title_first_witness :
  get_posts_search ascii_lower {[ "title" := "first"; "content" := "second" ]} POSTS
  = (POSTS, Ok (BList (filter (fun p => field_matches ascii_lower "first" "title" p) POSTS), 200)).
Proof.
  destruct (get_posts_search_title_first ascii_lower POSTS
              {[ "title" := "first"; "content" := "second" ]} "first" "second")
    as (_ & _ & _ & H & _); [reflexivity|reflexivity|discriminate|discriminate|].
  apply H. repeat constructor; eexists; reflexivity.
Defined.

(** C10. When [title] and [content] are both present with the empty
    string as value, the request is answered as if they were absent: 404
    with the empty list, and not 200 with the posts of the store. *)
Theorem get_posts_search_empty_values (lower : string → string) (st : list post) (a : args) :
  a !! "title" = Some "" → a !! "content" = Some "" →
  get_posts_search lower a st = (st, Ok (BList [], 404))
  ∧ get_posts_search lower a st = get_posts_search lower ∅ st
  ∧ get_posts_search lower a st ≠ (st, Ok (BList st, 200)).
Proof.
  intros Ht Hc.
  assert (get_posts_search lower a st = (st, Ok (BList [], 404))) as H.
  { apply get_posts_search_none; intros (s & Hs & Hne); congruence. }
  rewrite H. split; [done|]. split; [|congruence].
  symmetry. apply get_posts_search_none; by intros (s & Hs & _).
Qed.

Lemma get_posts_search_empty_values_witness :
  get_posts_search ascii_lower {[ "title" := ""; "content" := "" ]} POSTS
  = (POSTS, Ok (BList [], 404)).
Proof.
  destruct (get_posts_search_empty_values ascii_lower POSTS
              {[ "title" := ""; "content" := "" ]})
    as (H & _); [reflexivity|reflexivity|exact H].
Defined.

(** ** Further properties of the handlers *)

Section ReadOnly.

(** [str.lower] *)
Variable lower : string → string.

Lemma read_only_ret {A} (a : A) : read_only (mret a : M A).
Proof. done. Qed.

Lemma read_only_lift {A} (r : result A) : read_only (lift r).
Proof. done. Qed.

Lemma read_only_read : read_only read_POSTS.
Proof. done. Qed.

Lemma read_only_bind {A B} (m : M A) (f : A → M B) :
  read_only m → (∀ a, read_only (f a)) → read_only (m ≫= f).
Proof.
  intros Hm Hf st. unfold mbind, M_bind. specialize (Hm st).
  destruct (m st) as [st' [a|e]]; simpl in *; subst; [apply Hf|done].
Qed.

Lemma read_only_find_str q k : read_only (find_str lower q k).
Proof.
  unfold find_str. destruct (_ || _); [apply read_only_ret|].
  apply read_only_bind; [apply read_only_read|]. intros. apply read_only_lift.
Qed.

Lemma read_only_sort_posts_by_ key d : read_only (sort_posts_by_ key d).
Proof.
  apply read_only_bind; [apply read_only_read|]. intros. apply read_only_lift.
Qed.

Lemma read_only_get_posts a : read_only (get_posts a).
Proof.
  unfold get_posts. destruct (_ && _).
  - destruct (_ && _); [|apply read_only_ret].
    apply read_only_bind; [apply read_only_sort_posts_by_|].
    intros. apply read_only_ret.
  - apply read_only_bind; [apply read_only_read|]. intros. apply read_only_ret.
Qed.

Lemma read_only_get_posts_search a : read_only (get_posts_search lower a).
Proof.
  unfold get_posts_search, find_in_title, find_in_content.
  destruct (opt_truthy _ _).
  - apply read_only_bind; [apply read_only_find_str|]. intros. apply read_only_ret.
  - destruct (opt_truthy _ _); [|apply read_only_ret].
    apply read_only_bind; [apply read_only_find_str|]. intros. apply read_only_ret.
Qed.

End ReadOnly.

Section Writes.

(** What [add_post] does, case by case. *)
Lemma add_post_cases (post_json : dict) st :
  add_post post_json st
  = match post_json !! "title", post_json !! "content" with
    | None, _ => (st, Raise (KeyError "title"))
    | Some _, None => (st, Raise (KeyError "content"))
    | Some title, Some content =>
        match get_next_id st with
        | Ok id =>
            let post : post := {[ "id" := id; "title" := title; "content" := content ]} in
            (st ++ [post], Ok (BPost post, 201))
        | Raise e => (st, Raise e)
        end
    end.
Proof.
  unfold add_post, add_blog_post, getitem. unfold_M.
  destruct (post_json !! "title") as [t|]; [|done].
  destruct (post_json !! "content") as [c|]; [|done].
  by destruct (get_next_id st).
Qed.

(** What [update_post] does once the post is found, case by case. *)
Lemma update_post_cases post_id (post_json : dict) st i p :
  first_with_id post_id st i p →
  update_post post_id post_json st
  = match post_json !! "title", post_json !! "content" with
    | None, _ => (st, Raise (KeyError "title"))
    | Some title, None => (<[i := <["title" := title]> p]> st, Raise (KeyError "content"))
    | Some title, Some content =>
        (<[i := updated title content p]> st, Ok (BPost (updated title content p), 200))
    end.
Proof.
  intros Hfirst. pose proof Hfirst as (Hi & Hp & _).
  assert (i < length st)%nat as Hlt by (by eapply lookup_lt_Some).
  unfold update_post. unfold mbind at 1, M_bind at 1.
  rewrite (get_blog_post_by_id_found _ _ _ _ Hfirst), (has_id_truthy _ _ Hp).
  unfold mbind at 1, M_bind at 1, lift at 1, getitem at 1.
  destruct (post_json !! "title") as [t|]; [|done].
  unfold mbind at 1, M_bind at 1. rewrite (setitem_at _ _ _ _ _ Hi).
  unfold mbind at 1, M_bind at 1, lift at 1, getitem at 1.
  destruct (post_json !! "content") as [c|]; [|done].
  unfold mbind at 1, M_bind at 1.
  erewrite setitem_at by (by apply list_lookup_insert_eq).
  rewrite list_insert_insert_eq. unfold deref. unfold_M.
  by rewrite list_lookup_insert_eq.
Qed.

Lemma update_post_absent post_id (post_json : dict) st :
  Forall (fun p => ¬ has_id post_id p) st →
  update_post post_id post_json st
  = (st, Ok (BMessage ("Post with id= " +:+ str_of_int post_id +:+ " not found"), 404)).
Proof.
  intros Habs. unfold update_post. unfold mbind at 1, M_bind at 1.
  by rewrite (get_blog_post_by_id_absent _ _ Habs).
Qed.

Lemma delete_post_absent post_id st :
  Forall (fun p => ¬ has_id post_id p) st →
  delete_post post_id st
  = (st, Ok (BMessage ("Post with id= " +:+ str_of_int post_id +:+ " not found"), 404)).
Proof.
  intros Habs. unfold delete_post. unfold mbind at 1, M_bind at 1.
  by rewrite (get_blog_post_by_id_absent _ _ Habs).
Qed.

Lemma delete_post_present post_id st i p :
  first_with_id post_id st i p →
  delete_post post_id st
  = (delete i st,
     Ok (BMessage ("Post with id " +:+ str_of_int post_id
                   +:+ " has been deleted successfully."), 200)).
Proof.
  intros Hfirst. pose proof Hfirst as (Hi & Hp & Hmin).
  unfold delete_post. unfold mbind at 1, M_bind at 1.
  rewrite (get_blog_post_by_id_found _ _ _ _ Hfirst), (has_id_truthy _ _ Hp).
  unfold_M. rewrite (list_remove_first st i p Hi); [done|].
  intros j q Hj Hlt ->. by apply (Hmin j p).
Qed.

(** Either no post has the id, or there is a first one. *)
Lemma id_absent_or_first post_id st :
  Forall (fun p => ¬ has_id post_id p) st ∨ ∃ i p, first_with_id post_id st i p.
Proof.
  destruct (decide (Exists (has_id post_id) st)) as [Hex|Hno].
  - right. by apply exists_first_with_id.
  - left. by apply not_Exists_Forall; [apply _|].
Qed.

End Writes.

Section Invariants.

(** [str.lower] *)
Variable lower : string → string.

Lemma int_id_insert_other (p : post) k v :
  k ≠ "id" → int_id (<[k := v]> p) = int_id p.
Proof. intros Hk. unfold int_id. by rewrite lookup_insert_ne. Qed.

Lemma int_id_updated t c p : int_id (updated t c p) = int_id p.
Proof. unfold updated. by rewrite !int_id_insert_other. Qed.

Lemma int_ids_insert (st : list post) i p p' :
  st !! i = Some p → int_id p' = int_id p →
  int_ids (<[i := p']> st) = int_ids st.
Proof.
  revert i. induction st as [|q st IH]; intros [|i] Hi Hid; try done.
  - injection Hi as ->. unfold int_ids. simpl. by rewrite Hid.
  - simpl in Hi. change (int_ids ([q] ++ <[i := p']> st) = int_ids ([q] ++ st)).
    by rewrite !int_ids_app, (IH i).
Qed.

Lemma int_ids_sublist (l k : list post) :
  l `sublist_of` k → int_ids l `sublist_of` int_ids k.
Proof.
  induction 1 as [|x l k _ IH|x l k _ IH]; unfold int_ids in *; simpl.
  - constructor.
  - destruct (int_id x); simpl; [by constructor|done].
  - destruct (int_id x); simpl; [by constructor|done].
Qed.

Lemma positive_id_has_int_id p : positive_id p → has_int_id p.
Proof. intros (n & Hn & _). by exists n. Qed.

Lemma positive_id_same p p' : int_id p' = int_id p → positive_id p → positive_id p'.
Proof. unfold positive_id. by intros ->. Qed.

Lemma is_text_updated (post_json : dict) title content p :
  is_text post_json →
  post_json !! "title" = Some title → post_json !! "content" = Some content →
  is_text (updated title content p).
Proof.
  intros [[s Hs] [t Ht]] Htitle Hcontent. unfold updated.
  rewrite Hs in Htitle. rewrite Ht in Hcontent.
  injection Htitle as <-. injection Hcontent as <-. split.
  - exists s. by rewrite lookup_insert_ne, lookup_insert_eq.
  - exists t. by rewrite lookup_insert_eq.
Qed.

(** The id that [get_next_id] hands out is above every id of the store. *)
Lemma get_next_id_fresh st :
  Forall has_int_id st →
  ∃ n, get_next_id st = Ok (VInt n)
       ∧ Forall (fun m => m < n) (int_ids st)
       ∧ (Forall positive_id st → 1 ≤ n).
Proof.
  intros Hst. destruct st as [|p st].
  - exists 1. repeat split; [constructor|done].
  - destruct (get_next_id_ints p st Hst) as (m & Hm & Hin & Hle).
    exists (m + 1). split; [done|]. split.
    + eapply Forall_impl; [exact Hle|]. simpl. lia.
    + intros Hpos. apply list_elem_of_omap in Hin as (q & Hq & Hqm).
      rewrite Forall_forall in Hpos. destruct (Hpos _ Hq) as (n & Hn & Hn1).
      rewrite Hqm in Hn. injection Hn as ->. lia.
Qed.

Lemma ids_ok_snoc st n t c :
  ids_ok st → Forall (fun m => m < n) (int_ids st) → 1 ≤ n →
  ids_ok (st ++ [new_post n t c]).
Proof.
  intros [Hpos Hnd] Hlt Hn. split.
  - apply Forall_app. split; [done|]. constructor; [|done].
    exists n. by rewrite int_id_new_post.
  - rewrite int_ids_app. unfold int_ids at 2. simpl.
    rewrite int_id_new_post. simpl. apply NoDup_app. repeat split; [done| |].
    + intros m Hm Hin. apply list_elem_of_singleton in Hin as ->.
      rewrite Forall_forall in Hlt. specialize (Hlt _ Hm). lia.
    + apply NoDup_singleton.
Qed.

Lemma ids_ok_delete st i : ids_ok st → ids_ok (delete i st).
Proof.
  intros [Hpos Hnd]. split; [by apply Forall_delete|].
  eapply sublist_NoDup; [exact Hnd|]. apply int_ids_sublist, sublist_delete.
Qed.

Lemma ids_ok_insert st i p p' :
  st !! i = Some p → int_id p' = int_id p → ids_ok st → ids_ok (<[i := p']> st).
Proof.
  intros Hi Hid [Hpos Hnd]. split.
  - apply Forall_insert; [done|]. apply (positive_id_same p); [done|].
    rewrite Forall_forall in Hpos. apply Hpos. by eapply list_elem_of_lookup_2.
  - by rewrite (int_ids_insert _ _ p).
Qed.

Lemma route_ids_ok r st : ids_ok st → ids_ok (route lower r st).1.
Proof.
  intros Hok. destruct r as [a|j|n|n j|a]; simpl.
  - by rewrite read_only_get_posts.
  - rewrite add_post_cases.
    destruct (j !! "title") as [t|]; [|done].
    destruct (j !! "content") as [c|]; [|done].
    destruct (get_next_id_fresh st) as (k & -> & Hlt & Hk).
    { eapply Forall_impl; [exact (proj1 Hok)|]. apply positive_id_has_int_id. }
    simpl. apply (ids_ok_snoc st k t c); [done|done|]. apply Hk, Hok.
  - destruct (id_absent_or_first n st) as [Habs|(i & p & Hfirst)].
    + by rewrite delete_post_absent.
    + rewrite (delete_post_present _ _ _ _ Hfirst). by apply ids_ok_delete.
  - destruct (id_absent_or_first n st) as [Habs|(i & p & Hfirst)].
    + by rewrite update_post_absent.
    + rewrite (update_post_cases _ _ _ _ _ Hfirst). pose proof Hfirst as (Hi & _).
      destruct (j !! "title") as [t|]; [|done].
      destruct (j !! "content") as [c|]; simpl.
      * apply (ids_ok_insert _ _ p); [done|apply int_id_updated|done].
      * apply (ids_ok_insert _ _ p); [done|by apply int_id_insert_other|done].
  - by rewrite read_only_get_posts_search.
Qed.

(** On a store of text posts the two listing routes return. *)
Lemma get_posts_returns a st :
  Forall is_text st →
  ∃ body status, get_posts a st = (st, Ok (body, status))
                 ∧ (status = 200 ∨ status = 400).
Proof.
  intros Hst. unfold get_posts. destruct (_ && _).
  - destruct ((bool_decide (_ = "title") || _) && _) eqn:Hvalid.
    + apply andb_true_iff in Hvalid as [Hsort _].
      apply orb_true_iff in Hsort. rewrite !bool_decide_eq_true in Hsort.
      set (sort := default "" (a !! "sort")) in *.
      destruct (sort_posts_by_spec sort st
                  (bool_decide (default "" (a !! "direction") = "desc")))
        as (out & Hout & _).
      { eapply Forall_impl; [exact Hst|]. intros p [Ht Hc].
        by destruct Hsort as [-> | ->]. }
      exists (BList out), 200. unfold mbind, M_bind. rewrite Hout. auto.
    + exists (BMessage "Wrong sort or direction value"), 400. auto.
  - exists (BList st), 200. auto.
Qed.

Lemma get_posts_search_returns a st :
  Forall is_text st →
  ∃ body status, get_posts_search lower a st = (st, Ok (body, status))
                 ∧ (status = 200 ∨ status = 404).
Proof.
  intros Hst. destruct (decide (given a "title")) as [(t & Ht & Hne)|Hnt].
  - eexists _, 200. split; [|by left].
    apply (get_posts_search_by_title lower a st t Ht Hne).
    eapply Forall_impl; [exact Hst|]. by intros p [? ?].
  - destruct (decide (given a "content")) as [(c & Hc & Hne)|Hnc].
    + eexists _, 200. split; [|by left].
      apply (get_posts_search_by_content lower a st c Hnt Hc Hne).
      eapply Forall_impl; [exact Hst|]. by intros p [? ?].
    + eexists _, 404. split; [|by right]. by apply get_posts_search_none.
Qed.

Lemma route_store_ok r st :
  store_ok st → text_request r →
  store_ok (route lower r st).1
  ∧ ∃ body status, (route lower r st).2 = Ok (body, status).
Proof.
  intros [Hids Htext] Hreq. split; [split; [by apply route_ids_ok|]|].
  - destruct r as [a|j|n|n j|a]; simpl in *.
    + by rewrite read_only_get_posts.
    + rewrite add_post_cases. destruct Hreq as [[s Hs] [t Ht]]. rewrite Hs, Ht.
      destruct (get_next_id st) as [v|e]; [|done]. simpl.
      apply Forall_app. split; [done|]. constructor; [|done]. split.
      * exists s. by rewrite lookup_insert_ne, lookup_insert_eq.
      * exists t. by rewrite !lookup_insert_ne, lookup_singleton_eq.
    + destruct (id_absent_or_first n st) as [Habs|(i & p & Hfirst)].
      * by rewrite delete_post_absent.
      * rewrite (delete_post_present _ _ _ _ Hfirst). by apply Forall_delete.
    + destruct (id_absent_or_first n st) as [Habs|(i & p & Hfirst)].
      * by rewrite update_post_absent.
      * rewrite (update_post_cases _ _ _ _ _ Hfirst).
        pose proof Hreq as [[s Hs] [t Ht]]. rewrite Hs, Ht. simpl.
        apply Forall_insert; [done|]. by apply (is_text_updated j).
    + by rewrite read_only_get_posts_search.
  - destruct r as [a|j|n|n j|a]; simpl in *.
    + destruct (get_posts_returns a st Htext) as (b & s & -> & _). eauto.
    + rewrite add_post_cases. destruct Hreq as [[s Hs] [t Ht]]. rewrite Hs, Ht.
      destruct (get_next_id_fresh st) as (k & -> & _); [|simpl; eauto].
      eapply Forall_impl; [exact (proj1 Hids)|]. apply positive_id_has_int_id.
    + destruct (id_absent_or_first n st) as [Habs|(i & p & Hfirst)].
      * rewrite delete_post_absent by done. simpl. eauto.
      * rewrite (delete_post_present _ _ _ _ Hfirst). simpl. eauto.
    + destruct (id_absent_or_first n st) as [Habs|(i & p & Hfirst)].
      * rewrite update_post_absent by done. simpl. eauto.
      * rewrite (update_post_cases _ _ _ _ _ Hfirst).
        destruct Hreq as [[s Hs] [t Ht]]. rewrite Hs, Ht. simpl. eauto.
    + destruct (get_posts_search_returns a st Htext) as (b & s & -> & _). eauto.
Qed.

Lemma store_ok_POSTS : store_ok POSTS.
Proof.
  split; [split|].
  - repeat constructor; eexists; (split; [reflexivity|lia]).
  - unfold int_ids. simpl. apply NoDup_cons. split; [|apply NoDup_singleton].
    by intros ?%list_elem_of_singleton.
  - repeat constructor; eexists; reflexivity.
Qed.

End Invariants.

Section RoundTrips.

Lemma int_ids_lookup (st : list post) j q n :
  Forall has_int_id st → st !! j = Some q → int_id q = Some n →
  int_ids st !! j = Some n.
Proof.
  intros Hst Hj Hq. apply int_ids_all in Hst.
  destruct (Forall2_lookup_l _ _ _ _ _ Hst Hj) as (m & Hm & Hqm). congruence.
Qed.

Lemma has_id_int_id post_id p : has_id post_id p ↔ int_id p = Some post_id.
Proof. by rewrite has_id_lookup, int_id_Some. Qed.

(** The post that was just appended is the first, and only, one with its id. *)
Lemma first_with_id_snoc st n t c :
  Forall has_int_id st → Forall (fun m => m < n) (int_ids st) →
  first_with_id n (st ++ [new_post n t c]) (length st) (new_post n t c).
Proof.
  intros Hst Hlt. split; [by apply list_lookup_middle|]. split.
  - by apply has_id_lookup.
  - intros j q Hj Hjlt Hq. rewrite lookup_app_l in Hj by done.
    apply has_id_int_id in Hq.
    pose proof (int_ids_lookup _ _ _ _ Hst Hj Hq) as Hin.
    apply list_elem_of_lookup_2 in Hin. rewrite Forall_forall in Hlt.
    specialize (Hlt _ Hin). lia.
Qed.

(** With pairwise distinct ids, no post with the id is left once the first
    one is taken out. *)
Lemma first_with_id_only st post_id i p :
  Forall has_int_id st → NoDup (int_ids st) →
  first_with_id post_id st i p →
  Forall (fun q => ¬ has_id post_id q) (delete i st).
Proof.
  intros Hst Hnd (Hi & Hp & _). apply Forall_lookup. intros k q Hk Hq.
  apply has_id_int_id in Hp, Hq.
  pose proof (int_ids_lookup _ _ _ _ Hst Hi Hp) as Hi'.
  destruct (decide (k < i)%nat) as [Hlt|Hge].
  - rewrite list_lookup_delete_lt in Hk by done.
    pose proof (int_ids_lookup _ _ _ _ Hst Hk Hq) as Hk'.
    pose proof (NoDup_lookup _ _ _ _ Hnd Hi' Hk'). lia.
  - rewrite list_lookup_delete_ge in Hk by lia.
    pose proof (int_ids_lookup _ _ _ _ Hst Hk Hq) as Hk'.
    pose proof (NoDup_lookup _ _ _ _ Hnd Hi' Hk'). lia.
Qed.

Lemma delete_snoc {A} (l : list A) x : delete (length l) (l ++ [x]) = l.
Proof. by rewrite delete_middle, app_nil_r. Qed.

Lemma add_blog_post_fresh st t c :
  Forall has_int_id st →
  ∃ n, get_next_id st = Ok (VInt n)
       ∧ add_blog_post t c st = (st ++ [new_post n t c], Ok (new_post n t c))
       ∧ Forall (fun m => m < n) (int_ids st).
Proof.
  intros Hst. destruct (get_next_id_fresh st Hst) as (n & Hn & Hlt & _).
  exists n. repeat split; [done| |done].
  unfold add_blog_post. unfold_M. by rewrite Hn.
Qed.

(** The post under update stays the first with its id. *)
Lemma first_with_id_insert st post_id i p p' :
  first_with_id post_id st i p → has_id post_id p' →
  first_with_id post_id (<[i := p']> st) i p'.
Proof.
  intros (Hi & Hp & Hmin) Hp'. split; [|split; [done|]].
  - apply list_lookup_insert_eq. by eapply lookup_lt_Some.
  - intros j q Hj Hlt. rewrite list_lookup_insert_ne in Hj by lia.
    by apply (Hmin j).
Qed.

Lemma has_id_updated post_id t c p : has_id post_id p → has_id post_id (updated t c p).
Proof. rewrite !has_id_int_id. by rewrite int_id_updated. Qed.

Lemma updated_updated t c p : updated t c (updated t c p) = updated t c p.
Proof.
  unfold updated. apply map_eq. intros k.
  destruct (decide (k = "content")) as [->|Hc]; [by rewrite !lookup_insert_eq|].
  rewrite !(lookup_insert_ne _ "content") by done.
  destruct (decide (k = "title")) as [->|Ht]; [by rewrite !lookup_insert_eq|].
  by rewrite !lookup_insert_ne by done.
Qed.

End RoundTrips.

Section SortUnique.
Variable key : string.

Lemma field_le_antisym p q :
  field_le key p q → field_le key q p → field key p = field key q.
Proof.
  intros (s & t & Hs & Ht & Hst) (t' & s' & Ht' & Hs' & Hts).
  rewrite Ht in Ht'. rewrite Hs in Hs'. injection Ht' as <-. injection Hs' as <-.
  unfold field. rewrite Hs, Ht. simpl. f_equal. by apply str_le_antisym.
Qed.

Lemma field_order_antisym d p q :
  field_order key d p q → field_order key d q p → field key p = field key q.
Proof.
  destruct d; simpl; unfold flip; intros H1 H2;
    [symmetry|]; by apply field_le_antisym.
Qed.

(** A list has one stable sort only. *)
Lemma stable_sort_unique d (l1 l2 : list post) :
  l1 ≡ₚ l2 →
  StronglySorted (field_order key d) l1 →
  StronglySorted (field_order key d) l2 →
  (∀ v, filter (fun p => field key p = v) l1 = filter (fun p => field key p = v) l2) →
  l1 = l2.
Proof.
  intros Hperm Hs1. revert l2 Hperm.
  induction Hs1 as [|x l1 _ IH Hx]; intros l2 Hperm Hs2 Hfilter.
  { symmetry. by apply Permutation_nil. }
  destruct Hs2 as [|y l2 Hs2 Hy].
  { by apply Permutation_nil_r in Hperm. }
  assert (x = y) as <-.
  { rewrite Forall_forall in Hx, Hy.
    assert (y ∈ x :: l1) as Hy' by (rewrite Hperm; left).
    assert (x ∈ y :: l2) as Hx' by (rewrite <- Hperm; left).
    apply elem_of_cons in Hy' as [->|Hy']; [done|].
    apply elem_of_cons in Hx' as [->|Hx']; [done|].
    pose proof (field_order_antisym d x y (Hx _ Hy') (Hy _ Hx')) as Hxy.
    specialize (Hfilter (field key x)). rewrite !filter_cons in Hfilter.
    rewrite decide_True in Hfilter by done.
    rewrite decide_True in Hfilter by done.
    by injection Hfilter. }
  f_equal. apply IH; [by apply (inj (x ::.))|done|].
  intros v. specialize (Hfilter v). rewrite !filter_cons in Hfilter.
  destruct (decide (field key x = v)); [by injection Hfilter|done].
Qed.

Lemma sort_posts_by_sorted (st : list post) d :
  Forall (has_str key) st →
  StronglySorted (field_order key d) st →
  sort_posts_by_ key d st = (st, Ok st).
Proof.
  intros Hst Hsorted.
  destruct (sort_posts_by_spec key st d Hst) as (out & -> & Hperm & Hout & Hfilter).
  do 2 f_equal. by apply (stable_sort_unique d).
Qed.

Lemma filter_field_reverse (st : list post) v :
  NoDup (field key <$> st) →
  reverse (filter (fun p => field key p = v) st) = filter (fun p => field key p = v) st.
Proof.
  induction st as [|x st IH]; [done|]. csimpl. intros [Hx Hnd]%NoDup_cons.
  rewrite filter_cons. destruct (decide (field key x = v)) as [<-|Hne]; [|auto].
  assert (filter (fun p => field key p = field key x) st = []) as ->.
  { clear -Hx. induction st as [|y st IH]; [done|].
    rewrite filter_cons. csimpl in Hx.
    apply not_elem_of_cons in Hx as [Hxy Hx].
    rewrite decide_False by done. auto. }
  apply reverse_singleton.
Qed.

End SortUnique.

Section SearchCase.

(** [str.lower] *)
Variable lower : string → string.

(** [str.lower] gives the empty string for the empty string, and for no
    other. *)
Hypothesis lower_empty : ∀ s, lower s = "" ↔ s = "".

Lemma find_str_lower_eq q1 q2 k st :
  lower q1 = lower q2 → find_str lower q1 k st = find_str lower q2 k st.
Proof.
  intros Hq. destruct (decide (k = "")) as [->|Hk].
  { by rewrite !find_str_no_query by (by right). }
  destruct (decide (q1 = "")) as [->|Hq1].
  { rewrite (proj2 (lower_empty "") eq_refl) in Hq.
    symmetry in Hq. by apply (proj1 (lower_empty q2)) in Hq as ->. }
  assert (q2 ≠ "") as Hq2.
  { intros ->. rewrite (proj2 (lower_empty "") eq_refl) in Hq.
    by apply (proj1 (lower_empty q1)) in Hq. }
  rewrite !find_str_unfold by done. by rewrite Hq.
Qed.

End SearchCase.

Section SelfMatch.

Lemma append_empty_r s : s +:+ "" = s.
Proof.
  induction s as [|c s IH]; [reflexivity|].
  change (String c (s +:+ "") = String c s). by rewrite IH.
Qed.

Lemma contains_refl s : contains s s = true.
Proof. apply contains_spec. exists "", "". simpl. by rewrite append_empty_r. Qed.

End SelfMatch.

Section Compositions.

(** [str.lower] *)
Variable lower : string → string.

Lemma add_post_fresh (st : list post) (post_json : dict) title content :
  post_json !! "title" = Some title → post_json !! "content" = Some content →
  Forall has_int_id st →
  ∃ n, get_next_id st = Ok (VInt n)
       ∧ add_post post_json st
         = (st ++ [new_post n title content], Ok (BPost (new_post n title content), 201))
       ∧ Forall (fun m => m < n) (int_ids st).
Proof.
  intros Ht Hc Hst. destruct (get_next_id_fresh st Hst) as (n & Hn & Hlt & _).
  exists n. repeat split; [done| |done].
  by rewrite add_post_cases, Ht, Hc, Hn.
Qed.

Lemma delete_post_last st n t c :
  Forall has_int_id st → Forall (fun m => m < n) (int_ids st) →
  delete_post n (st ++ [new_post n t c])
  = (st, Ok (BMessage ("Post with id " +:+ str_of_int n
                       +:+ " has been deleted successfully."), 200)).
Proof.
  intros Hst Hlt.
  rewrite (delete_post_present _ _ _ _ (first_with_id_snoc st n t c Hst Hlt)).
  by rewrite delete_snoc.
Qed.

Lemma update_post_present st post_id (post_json : dict) title content i p :
  post_json !! "title" = Some title → post_json !! "content" = Some content →
  first_with_id post_id st i p →
  update_post post_id post_json st
  = (<[i := updated title content p]> st, Ok (BPost (updated title content p), 200)).
Proof. intros Ht Hc Hfirst. by rewrite (update_post_cases _ _ _ _ _ Hfirst), Ht, Hc. Qed.

Lemma M_bind_raise {A B} (m : M A) (f : A → M B) st st' e :
  m st = (st', Raise e) → (m ≫= f) st = (st', Raise e).
Proof. intros H. unfold mbind, M_bind. by rewrite H. Qed.

End Compositions.

(** ** Properties beyond the claims *)

(** X1. [add_post] with a body that carries a title and a content, on a
    store whose posts carry integer ids, answers 201 with the new post; the
    post is appended to the store, which is otherwise unchanged, and its id
    is the one [get_next_id] computes, above every id of the store. *)
Theorem add_post_creates (st : list post) (post_json : dict) (title content : value) :
  post_json !! "title" = Some title → post_json !! "content" = Some content →
  Forall has_int_id st →
  ∃ n, get_next_id st = Ok (VInt n)
       ∧ add_post post_json st
         = (st ++ [new_post n title content], Ok (BPost (new_post n title content), 201))
       ∧ Forall (fun m => m < n) (int_ids st).
Proof. apply add_post_fresh. Qed.

Lemma add_post_creates_witness :
  ∃ n, get_next_id POSTS = Ok (VInt n)
       ∧ add_post {[ "title" := VStr "A"; "content" := VStr "B" ]} POSTS
         = (POSTS ++ [new_post n (VStr "A") (VStr "B")],
            Ok (BPost (new_post n (VStr "A") (VStr "B")), 201))
       ∧ Forall (fun m => m < n) (int_ids POSTS).
Proof.
  apply (add_post_creates POSTS {[ "title" := VStr "A"; "content" := VStr "B" ]});
    [reflexivity|reflexivity|].
  repeat constructor; eexists; reflexivity.
Defined.

(** X2. [add_post] with a body that lacks ["title"], or has it and lacks
    ["content"], raises [KeyError] for the first missing key and leaves
    the store as it was. *)
Theorem add_post_missing_field (st : list post) (post_json : dict) :
  (post_json !! "title" = None →
     add_post post_json st = (st, Raise (KeyError "title")))
  ∧ (is_Some (post_json !! "title") → post_json !! "content" = None →
     add_post post_json st = (st, Raise (KeyError "content"))).
Proof.
  split.
  - intros Ht. by rewrite add_post_cases, Ht.
  - intros [t Ht] Hc. by rewrite add_post_cases, Ht, Hc.
Qed.

Lemma add_post_missing_field_witness :
  add_post {[ "content" := VStr "B" ]} POSTS = (POSTS, Raise (KeyError "title"))
  ∧ add_post {[ "title" := VStr "A" ]} POSTS = (POSTS, Raise (KeyError "content")).
Proof.
  split.
  - destruct (add_post_missing_field POSTS {[ "content" := VStr "B" ]}) as [H _].
    apply H. reflexivity.
  - destruct (add_post_missing_field POSTS {[ "title" := VStr "A" ]}) as [_ H].
    apply H; [by eexists|reflexivity].
Defined.

(** X3. [update_post] on an id that some post has, with a body that lacks
    ["title"], raises [KeyError] and leaves the store as it was; with a
    body that has ["title"] and lacks ["content"], it raises [KeyError]
    after the title of the post has been replaced: the store keeps the new
    title and the old content. *)
Theorem update_post_missing_field (st : list post) (post_id : Z) (post_json : dict)
    (i : nat) (p : post) :
  first_with_id post_id st i p →
  (post_json !! "title" = None →
     update_post post_id post_json st = (st, Raise (KeyError "title")))
  ∧ (∀ title, post_json !! "title" = Some title → post_json !! "content" = None →
       update_post post_id post_json st
       = (<[i := <["title" := title]> p]> st, Raise (KeyError "content"))
       ∧ (<["title" := title]> p) !! "content" = p !! "content").
Proof.
  intros Hfirst. split.
  - intros Ht. by rewrite (update_post_cases _ _ _ _ _ Hfirst), Ht.
  - intros t Ht Hc. split; [|by rewrite lookup_insert_ne].
    by rewrite (update_post_cases _ _ _ _ _ Hfirst), Ht, Hc.
Qed.

Lemma update_post_missing_field_witness :
  ∃ p, POSTS !! 1%nat = Some p
       ∧ update_post 2 {[ "title" := VStr "T" ]} POSTS
         = (<[1%nat := <["title" := VStr "T"]> p]> POSTS, Raise (KeyError "content")).
Proof.
  eexists. split; [reflexivity|].
  eapply (update_post_missing_field POSTS 2 {[ "title" := VStr "T" ]} 1%nat);
    [|reflexivity|reflexivity].
  split; [reflexivity|]. split; [reflexivity|].
  intros [|[|j]] q Hq Hlt; [|lia|lia].
  injection Hq as <-. discriminate.
Defined.

(** X4. The two listing routes, and the search and sort functions under
    them, never change the store, whatever the parameters and whether
    they return or raise. *)
Theorem listing_routes_read_only (lower : string → string) (st : list post) (request_args : args)
    (s k : string) (d : bool) :
  (get_posts request_args st).1 = st
  ∧ (get_posts_search lower request_args st).1 = st
  ∧ (find_str lower s k st).1 = st
  ∧ (sort_posts_by_ k d st).1 = st.
Proof.
  split; [|split; [|split]].
  - apply read_only_get_posts.
  - apply read_only_get_posts_search.
  - apply read_only_find_str.
  - apply read_only_sort_posts_by_.
Qed.

(** X5. Whatever the requests and their bodies — also those answered with
    an error or an exception —, a store in which every post carries a
    positive integer id and no two posts the same id stays so. *)
Theorem serve_keeps_ids (lower : string → string) (rs : list request) (st : list post) :
  ids_ok st → ids_ok (serve lower rs st).
Proof.
  revert st. induction rs as [|r rs IH]; intros st Hst; [done|].
  simpl. by apply IH, route_ids_ok.
Qed.

Lemma serve_keeps_ids_witness :
  ids_ok (serve ascii_lower [POST_posts {[ "title" := VInt 5; "content" := VNone ]};
                 DELETE_post 1; PUT_post 3 {[ "title" := VStr "T" ]};
                 POST_posts {[ "title" := VStr "A" ]}] POSTS).
Proof. apply (serve_keeps_ids ascii_lower). apply store_ok_POSTS. Defined.

(** X6. From a store whose posts carry distinct positive ids and strings as
    title and content, requests whose bodies carry strings as title and
    content keep the store so, and every such request is answered with a
    body and a status: no handler raises. *)
Theorem serve_text_requests (lower : string → string) (rs : list request) (st : list post) :
  store_ok st → Forall text_request rs →
  store_ok (serve lower rs st)
  ∧ ∀ r, text_request r →
         ∃ body status, (route lower r (serve lower rs st)).2 = Ok (body, status).
Proof.
  revert st. induction rs as [|r rs IH]; intros st Hst Hrs; simpl.
  - split; [done|]. intros r Hr. by apply route_store_ok.
  - apply Forall_cons in Hrs as [Hr Hrs]. apply IH; [|done].
    by apply route_store_ok.
Qed.

Lemma serve_text_requests_witness :
  store_ok (serve ascii_lower [POST_posts {[ "title" := VStr "A"; "content" := VStr "B" ]};
                   GET_search {[ "title" := "a" ]}] POSTS).
Proof.
  apply (serve_text_requests ascii_lower
           [POST_posts {[ "title" := VStr "A"; "content" := VStr "B" ]};
            GET_search {[ "title" := "a" ]}] POSTS).
  - apply store_ok_POSTS.
  - repeat constructor; eexists; reflexivity.
Defined.

(** X7. [update_post] stores whatever value the body carries.  Once a
    title that is not a string has been stored, a search by title raises
    instead of answering. *)
Theorem update_post_stores_any_title (lower : string → string) (st : list post) (post_id : Z) (post_json : dict)
    (title content : value) (q : string) :
  Exists (has_id post_id) st →
  post_json !! "title" = Some title → (∀ s, title ≠ VStr s) →
  post_json !! "content" = Some content →
  q ≠ "" →
  ∃ i p st' e,
    first_with_id post_id st i p
    ∧ update_post post_id post_json st = (st', Ok (BPost (updated title content p), 200))
    ∧ st' !! i = Some (updated title content p)
    ∧ get_posts_search lower {[ "title" := q ]} st' = (st', Raise e).
Proof.
  intros Hex Ht Hbad Hc Hq.
  destruct (exists_first_with_id _ _ Hex) as (i & p & Hfirst).
  pose proof Hfirst as (Hi & _).
  assert (<[i := updated title content p]> st !! i = Some (updated title content p)) as Hi'.
  { apply list_lookup_insert_eq. by eapply lookup_lt_Some. }
  destruct (find_str_raises lower q "title" (<[i := updated title content p]> st))
    as (e & He & _); [done|done| |].
  { apply Exists_exists. exists (updated title content p).
    split; [by eapply list_elem_of_lookup_2|].
    intros [s Hs]. unfold updated in Hs.
    rewrite lookup_insert_ne, lookup_insert_eq in Hs by done.
    injection Hs as ->. by apply (Hbad s). }
  exists i, p, (<[i := updated title content p]> st), e.
  split; [done|]. split; [by apply update_post_present|]. split; [done|].
  rewrite get_posts_search_title.
  - rewrite lookup_singleton_eq. simpl. by apply M_bind_raise.
  - exists q. by rewrite lookup_singleton_eq.
Qed.

Lemma update_post_stores_any_title_witness :
  ∃ i p st' e,
    first_with_id 1 POSTS i p
    ∧ update_post 1 {[ "title" := VInt 5; "content" := VStr "C" ]} POSTS
      = (st', Ok (BPost (updated (VInt 5) (VStr "C") p), 200))
    ∧ st' !! i = Some (updated (VInt 5) (VStr "C") p)
    ∧ get_posts_search ascii_lower {[ "title" := "post" ]} st' = (st', Raise e).
Proof.
  apply (update_post_stores_any_title ascii_lower POSTS 1
           {[ "title" := VInt 5; "content" := VStr "C" ]} (VInt 5) (VStr "C") "post");
    [|reflexivity|discriminate|reflexivity|discriminate].
  apply Exists_cons_hd. reflexivity.
Defined.

(** X8. After [add_blog_post] on a store whose posts carry integer ids,
    [get_blog_post_by_id] with the id of the returned post finds that post,
    at the end of the store. *)
Theorem add_blog_post_then_lookup (st : list post) (title content : value) :
  Forall has_int_id st →
  ∃ n st',
    add_blog_post title content st = (st', Ok (new_post n title content))
    ∧ get_blog_post_by_id n st' = (st', Ok (Some (length st, new_post n title content))).
Proof.
  intros Hst. destruct (add_blog_post_fresh st title content Hst) as (n & _ & Hadd & Hlt).
  exists n, (st ++ [new_post n title content]). split; [done|].
  by apply get_blog_post_by_id_found, first_with_id_snoc.
Qed.

Lemma add_blog_post_then_lookup_witness :
  ∃ n st',
    add_blog_post (VStr "A") (VStr "B") POSTS = (st', Ok (new_post n (VStr "A") (VStr "B")))
    ∧ get_blog_post_by_id n st'
      = (st', Ok (Some (length POSTS, new_post n (VStr "A") (VStr "B")))).
Proof.
  apply (add_blog_post_then_lookup POSTS (VStr "A") (VStr "B")).
  repeat constructor; eexists; reflexivity.
Defined.

(** X9. In a store whose posts carry pairwise distinct integer ids, once
    [delete_post] has removed the post with an id, the store is one post
    shorter, [get_blog_post_by_id] no longer finds the id, and deleting it
    again answers 404 and changes nothing. *)
Theorem delete_post_then_lookup (st : list post) (post_id : Z) :
  Forall has_int_id st → NoDup (int_ids st) → Exists (has_id post_id) st →
  ∃ st',
    (delete_post post_id st).1 = st'
    ∧ length st = S (length st')
    ∧ get_blog_post_by_id post_id st' = (st', Ok None)
    ∧ delete_post post_id st'
      = (st', Ok (BMessage ("Post with id= " +:+ str_of_int post_id +:+ " not found"), 404)).
Proof.
  intros Hst Hnd Hex. destruct (exists_first_with_id _ _ Hex) as (i & p & Hfirst).
  pose proof (first_with_id_only _ _ _ _ Hst Hnd Hfirst) as Hgone.
  pose proof Hfirst as (Hi & _).
  exists (delete i st). split; [by rewrite (delete_post_present _ _ _ _ Hfirst)|].
  split; [|split].
  - rewrite length_delete by done. apply lookup_lt_Some in Hi. lia.
  - by apply get_blog_post_by_id_absent.
  - by apply delete_post_absent.
Qed.

Lemma delete_post_then_lookup_witness :
  ∃ st',
    (delete_post 1 POSTS).1 = st'
    ∧ length POSTS = S (length st')
    ∧ get_blog_post_by_id 1 st' = (st', Ok None)
    ∧ delete_post 1 st' = (st', Ok (BMessage "Post with id= 1 not found", 404)).
Proof.
  apply (delete_post_then_lookup POSTS 1).
  - repeat constructor; eexists; reflexivity.
  - apply (proj2 (proj1 store_ok_POSTS)).
  - apply Exists_cons_hd. reflexivity.
Defined.

(** X10. Creating a post with [add_post] and then deleting the id it was
    given answers 200 and gives back the store as it was before the
    creation. *)
Theorem add_post_then_delete_restores (st : list post) (post_json : dict)
    (title content : value) :
  post_json !! "title" = Some title → post_json !! "content" = Some content →
  Forall has_int_id st →
  ∃ n st',
    add_post post_json st = (st', Ok (BPost (new_post n title content), 201))
    ∧ delete_post n st'
      = (st, Ok (BMessage ("Post with id " +:+ str_of_int n
                           +:+ " has been deleted successfully."), 200)).
Proof.
  intros Ht Hc Hst.
  destruct (add_post_fresh st post_json title content Ht Hc Hst) as (n & _ & Hadd & Hlt).
  exists n, (st ++ [new_post n title content]). split; [done|].
  by apply delete_post_last.
Qed.

Lemma add_post_then_delete_restores_witness :
  ∃ n st',
    add_post {[ "title" := VStr "A"; "content" := VStr "B" ]} POSTS
    = (st', Ok (BPost (new_post n (VStr "A") (VStr "B")), 201))
    ∧ delete_post n st'
      = (POSTS, Ok (BMessage ("Post with id " +:+ str_of_int n
                              +:+ " has been deleted successfully."), 200)).
Proof.
  apply (add_post_then_delete_restores POSTS
           {[ "title" := VStr "A"; "content" := VStr "B" ]});
    [reflexivity|reflexivity|].
  repeat constructor; eexists; reflexivity.
Defined.

(** X11. An id that has been freed is handed out again: when the post
    that [add_blog_post] has just created is deleted, the next
    [add_blog_post] returns a post with the same id. *)
Theorem freed_id_is_reused (st : list post) (t1 c1 t2 c2 : value) :
  Forall has_int_id st →
  ∃ n st1 st2,
    add_blog_post t1 c1 st = (st1, Ok (new_post n t1 c1))
    ∧ (delete_post n st1).1 = st2
    ∧ add_blog_post t2 c2 st2 = (st2 ++ [new_post n t2 c2], Ok (new_post n t2 c2)).
Proof.
  intros Hst.
  destruct (add_blog_post_fresh st t1 c1 Hst) as (n & Hn & Hadd & Hlt).
  exists n, (st ++ [new_post n t1 c1]), st. split; [done|]. split.
  - by rewrite delete_post_last.
  - unfold add_blog_post. unfold_M. by rewrite Hn.
Qed.

Lemma freed_id_is_reused_witness :
  ∃ n st1 st2,
    add_blog_post (VStr "A") (VStr "B") POSTS = (st1, Ok (new_post n (VStr "A") (VStr "B")))
    ∧ (delete_post n st1).1 = st2
    ∧ add_blog_post (VStr "C") (VStr "D") st2
      = (st2 ++ [new_post n (VStr "C") (VStr "D")], Ok (new_post n (VStr "C") (VStr "D"))).
Proof.
  apply (freed_id_is_reused POSTS (VStr "A") (VStr "B") (VStr "C") (VStr "D")).
  repeat constructor; eexists; reflexivity.
Defined.

(** X12. A PUT with a body that carries a title and a content can be
    repeated: sent a second time, the same request leaves the store as
    the first one left it and gets the same answer, found or not. *)
Theorem update_post_idempotent (st : list post) (post_id : Z) (post_json : dict) :
  is_Some (post_json !! "title") → is_Some (post_json !! "content") →
  update_post post_id post_json (update_post post_id post_json st).1
  = update_post post_id post_json st.
Proof.
  intros [t Ht] [c Hc].
  destruct (id_absent_or_first post_id st) as [Habs|(i & p & Hfirst)].
  - rewrite (update_post_absent _ _ _ Habs). simpl. by apply update_post_absent.
  - rewrite (update_post_present _ _ _ _ _ _ _ Ht Hc Hfirst). simpl.
    pose proof Hfirst as (_ & Hp & _).
    rewrite (update_post_present _ _ _ t c i (updated t c p) Ht Hc).
    + by rewrite updated_updated, list_insert_insert_eq.
    + apply (first_with_id_insert _ _ _ p); [done|]. by apply has_id_updated.
Qed.

Lemma update_post_idempotent_witness :
  update_post 2 {[ "title" := VStr "T"; "content" := VStr "C" ]}
    (update_post 2 {[ "title" := VStr "T"; "content" := VStr "C" ]} POSTS).1
  = update_post 2 {[ "title" := VStr "T"; "content" := VStr "C" ]} POSTS.
Proof.
  apply (update_post_idempotent POSTS 2 {[ "title" := VStr "T"; "content" := VStr "C" ]});
    by eexists.
Defined.

(** X13. After a successful [update_post], [get_blog_post_by_id] with the
    same id finds the updated post, at the position the post had. *)
Theorem update_post_then_lookup (st : list post) (post_id : Z) (post_json : dict)
    (title content : value) :
  post_json !! "title" = Some title → post_json !! "content" = Some content →
  Exists (has_id post_id) st →
  ∃ i p st',
    first_with_id post_id st i p
    ∧ (update_post post_id post_json st).1 = st'
    ∧ get_blog_post_by_id post_id st' = (st', Ok (Some (i, updated title content p))).
Proof.
  intros Ht Hc Hex. destruct (exists_first_with_id _ _ Hex) as (i & p & Hfirst).
  exists i, p, (<[i := updated title content p]> st). split; [done|]. split.
  - by rewrite (update_post_present _ _ _ _ _ _ _ Ht Hc Hfirst).
  - apply get_blog_post_by_id_found, (first_with_id_insert _ _ _ p); [done|].
    apply has_id_updated, Hfirst.
Qed.

Lemma update_post_then_lookup_witness :
  ∃ i p st',
    first_with_id 2 POSTS i p
    ∧ (update_post 2 {[ "title" := VStr "T"; "content" := VStr "C" ]} POSTS).1 = st'
    ∧ get_blog_post_by_id 2 st' = (st', Ok (Some (i, updated (VStr "T") (VStr "C") p))).
Proof.
  apply (update_post_then_lookup POSTS 2 {[ "title" := VStr "T"; "content" := VStr "C" ]});
    [reflexivity|reflexivity|].
  apply Exists_cons_tl, Exists_cons_hd. reflexivity.
Defined.

(** X14. On posts that hold a string under the key, [sort_posts_by_]
    returns a store that is already in the requested order as it is, and
    sorting its own result again changes nothing. *)
Theorem sort_posts_by_idempotent (st : list post) (key : string) (is_desc : bool) :
  Forall (has_str key) st →
  (StronglySorted (field_order key is_desc) st →
     sort_posts_by_ key is_desc st = (st, Ok st))
  ∧ ∃ out, sort_posts_by_ key is_desc st = (st, Ok out)
           ∧ sort_posts_by_ key is_desc out = (out, Ok out).
Proof.
  intros Hst. split; [by apply sort_posts_by_sorted|].
  destruct (sort_posts_by_spec key st is_desc Hst) as (out & Hout & Hperm & Hsorted & _).
  exists out. split; [done|]. apply sort_posts_by_sorted; [|done].
  by rewrite Hperm.
Qed.

Lemma sort_posts_by_idempotent_witness :
  ∃ out, sort_posts_by_ "title" true POSTS = (POSTS, Ok out)
         ∧ sort_posts_by_ "title" true out = (out, Ok out).
Proof.
  apply (sort_posts_by_idempotent POSTS "title" true).
  repeat constructor; eexists; reflexivity.
Defined.

(** X15. On posts that hold pairwise distinct strings under the key, the
    descending sort is the ascending sort read backwards. *)
Theorem sort_posts_by_desc_reverse (st : list post) (key : string) :
  Forall (has_str key) st → NoDup (field key <$> st) →
  ∃ out, sort_posts_by_ key false st = (st, Ok out)
         ∧ sort_posts_by_ key true st = (st, Ok (reverse out)).
Proof.
  intros Hst Hnd.
  destruct (sort_posts_by_spec key st false Hst) as (asc & Hasc & Hperm & Hsorted & Hfilter).
  destruct (sort_posts_by_spec key st true Hst) as (desc & Hdesc & Hperm' & Hsorted' & Hfilter').
  exists asc. split; [done|]. rewrite Hdesc. do 2 f_equal.
  apply (stable_sort_unique key true).
  - by rewrite Hperm', reverse_Permutation, Hperm.
  - done.
  - by apply StronglySorted_reverse.
  - intros v. rewrite Hfilter', filter_reverse, Hfilter.
    symmetry. by apply filter_field_reverse.
Qed.

Lemma sort_posts_by_desc_reverse_witness :
  ∃ out, sort_posts_by_ "content" false POSTS = (POSTS, Ok out)
         ∧ sort_posts_by_ "content" true POSTS = (POSTS, Ok (reverse out)).
Proof.
  apply (sort_posts_by_desc_reverse POSTS "content").
  - repeat constructor; eexists; reflexivity.
  - apply NoDup_cons. split; [|apply NoDup_singleton].
    intros H%list_elem_of_singleton. discriminate H.
Defined.

(** X16. [find_str] disregards the case of the letters of the query: two
    queries that agree once put in lower case get the same answer, on any
    store and for any field, found, empty or raised.  This holds for
    [str.lower] whatever it computes, as long as it gives the empty string
    for the empty string and for no other. *)
Theorem find_str_query_case (lower : string → string) (st : list post)
    (q1 q2 search_key : string) :
  (∀ s, lower s = "" ↔ s = "") →
  lower q1 = lower q2 →
  find_str lower q1 search_key st = find_str lower q2 search_key st.
Proof. intros Hempty. by apply find_str_lower_eq. Qed.

Lemma find_str_query_case_witness :
  find_str ascii_lower "PoSt" "title" POSTS = find_str ascii_lower "post" "title" POSTS.
Proof.
  apply (find_str_query_case ascii_lower POSTS "PoSt" "post" "title"); [|reflexivity].
  intros s. destruct s; split; (reflexivity || discriminate).
Defined.

(** X17. [delete_post] never raises.  On every store and for every id it
    answers a message, with 404 and the store as it was, or with 200 and
    the store one post shorter, the other posts in their order. *)
Theorem delete_post_answers (st : list post) (post_id : Z) :
  ∃ st' message status,
    delete_post post_id st = (st', Ok (BMessage message, status))
    ∧ ((status = 404 ∧ st' = st)
       ∨ (status = 200 ∧ length st = S (length st') ∧ st' `sublist_of` st)).
Proof.
  destruct (id_absent_or_first post_id st) as [Habs|(i & p & Hfirst)].
  - eexists st, _, 404. split; [by apply delete_post_absent|]. by left.
  - eexists (delete i st), _, 200.
    split; [exact (delete_post_present _ _ _ _ Hfirst)|].
    right. pose proof Hfirst as (Hi & _). split; [done|]. split.
    + rewrite length_delete by done. apply lookup_lt_Some in Hi. lia.
    + apply sublist_delete.
Qed.

(** X18. A post created with a non-empty string as title is found by a
    search for that title: on a store whose posts have integer ids and
    string titles, the search that follows the creation answers 200 with a
    list that contains the new post. *)
Theorem add_post_then_search (lower : string → string) (st : list post) (post_json : dict)
    (title : string) (content : value) :
  post_json !! "title" = Some (VStr title) → post_json !! "content" = Some content →
  title ≠ "" →
  Forall has_int_id st → Forall (has_str "title") st →
  ∃ n st' found,
    add_post post_json st = (st', Ok (BPost (new_post n (VStr title) content), 201))
    ∧ get_posts_search lower {[ "title" := title ]} st' = (st', Ok (BList found, 200))
    ∧ new_post n (VStr title) content ∈ found.
Proof.
  intros Ht Hc Hne Hids Hstr.
  destruct (add_post_fresh st post_json _ _ Ht Hc Hids) as (n & _ & Hadd & _).
  eexists n, _, _. split; [done|]. split.
  - apply (get_posts_search_by_title lower _ _ title); [by rewrite lookup_singleton_eq|done|].
    apply Forall_app. split; [done|]. constructor; [|done]. by exists title.
  - apply list_elem_of_filter. split.
    + apply Is_true_true. unfold field_matches, new_post.
      rewrite lookup_insert_ne, lookup_insert_eq by done. apply contains_refl.
    + apply elem_of_app. right. apply list_elem_of_singleton. done.
Qed.

Lemma add_post_then_search_witness :
  ∃ n st' found,
    add_post {[ "title" := VStr "Third"; "content" := VStr "B" ]} POSTS
    = (st', Ok (BPost (new_post n (VStr "Third") (VStr "B")), 201))
    ∧ get_posts_search ascii_lower {[ "title" := "Third" ]} st' = (st', Ok (BList found, 200))
    ∧ new_post n (VStr "Third") (VStr "B") ∈ found.
Proof.
  apply (add_post_then_search ascii_lower POSTS {[ "title" := VStr "Third"; "content" := VStr "B" ]});
    [reflexivity|reflexivity|discriminate| |].
  - repeat constructor; eexists; reflexivity.
  - repeat constructor; eexists; reflexivity.
Defined.
